(** * youtootube: the client-side state model of [src/App.tsx]

    A shallow embedding of the state handlers of the single-page video
    widget: like toggling, comment submission, persistence helpers,
    username derivation and tab / index navigation.

    Conventions of the embedding
    - a JavaScript string is the list of its UTF-16 code units;
    - an object used as a dictionary ([Record<string, T>]) is the [gmap]
      of its own properties.  [userLikes] is read under user names, which
      come from email addresses and can be any string, so a read of it
      also sees the properties every object inherits from
      [Object.prototype].  [likes] is read under ids of the catalogue and
      [avatars] under ids issued by the identity service; none of them is
      the name of an inherited property, and these two lookups are plain
      [gmap] lookups;
    - like counts and indices are JavaScript numbers that only ever hold
      integers here; they are modelled as [Z];
    - React state is one record; a handler is a function from the state
      it closes over to the state after its setters have been applied. *)

From Stdlib Require Import ZArith String Ascii DecimalFacts DecimalN Lia.
From stdpp Require Import base option list gmap strings fin_maps sorting.

Local Open Scope Z_scope.

(** ** JavaScript strings *)

Abbreviation code_unit := N.
Abbreviation jsstring := (list N).

(** The code units of an ASCII literal of the source. *)
Fixpoint js (s : string) : jsstring :=
  match s with
  | EmptyString => []
  | String a s' => N_of_ascii a :: js s'
  end.

(** Truthiness of a string: every string but the empty one. *)
Definition truthy (s : jsstring) : bool :=
  match s with [] => false | _ :: _ => true end.

(** [a || b] on strings where [a] may also be [undefined] / [null]. *)
Definition or_else (a : option jsstring) (b : jsstring) : jsstring :=
  match a with
  | Some s => if truthy s then s else b
  | None => b
  end.

(** ** Data model *)

Inductive TabKey := trending | your.
Inductive VideoCategory := TRENDING | YOUR.

#[global] Instance TabKey_eq_dec : EqDecision TabKey.
Proof. solve_decision. Defined.
#[global] Instance VideoCategory_eq_dec : EqDecision VideoCategory.
Proof. solve_decision. Defined.

Record Video := mkVideo {
  video_id : jsstring;
  title : jsstring;
  description : jsstring;
  url : jsstring;
  category : VideoCategory;
}.

Record Comment := mkComment {
  comment_id : jsstring;
  videoId : jsstring;
  author : jsstring;
  text : jsstring;
  createdAt : jsstring;
}.

Record CurrentUser := mkCurrentUser {
  user_id : jsstring;
  email : jsstring;
  username : jsstring;
}.

#[global] Instance Comment_eq_dec : EqDecision Comment.
Proof. solve_decision. Defined.
#[global] Instance CurrentUser_eq_dec : EqDecision CurrentUser.
Proof. solve_decision. Defined.

Definition ALL_VIDEOS : list Video := [
  mkVideo (js "wowfinalfinal1") (js "Epic Wow Final 1")
    (js "Kicking things off with your first wowfinalfinal masterpiece.")
    (js "https://mystorageaccount2306.blob.core.windows.net/videos/wowfinalfinal1.mp4")
    TRENDING;
  mkVideo (js "wowfinalfinal2") (js "Epic Wow Final 2")
    (js "The sequel that absolutely no one is ready for.")
    (js "https://mystorageaccount2306.blob.core.windows.net/videos/wowfinalfinal2.mp4")
    TRENDING;
  mkVideo (js "wowfinalfinal3") (js "Your Wow Final 3")
    (js "Uploaded by you " ++ [8211%N] ++ js " flexing those video skills.")
    (js "https://mystorageaccount2306.blob.core.windows.net/videos/wowfinalfinal3.mp4")
    YOUR;
  mkVideo (js "wowfinalfinal4") (js "Your Wow Final 4")
    (js "Another banger in your personal collection.")
    (js "https://mystorageaccount2306.blob.core.windows.net/videos/wowfinalfinal4.mp4")
    YOUR
].

(** [LikesState], [UserLikesState] and [UserAvatarState] are written out
    as [gmap]s wherever they occur:
    - likes : videoId -> count
    - userLikes : username -> videoIds
    - avatars : userId -> dataUrl *)

(** The interaction part of the component state (the [useState] cells
    that the like and comment handlers read or write). *)
Record AppState := mkApp {
  currentUser : option CurrentUser;
  likes : gmap jsstring Z;
  userLikes : gmap jsstring (list jsstring);
  comments : list Comment;
  avatars : gmap jsstring jsstring;
  authError : option jsstring;
  authSuccess : option jsstring;
}.

Definition initial_state : AppState :=
  mkApp None ∅ ∅ [] ∅ None None.

Definition setCurrentUser (u : option CurrentUser) (st : AppState) : AppState :=
  mkApp u (likes st) (userLikes st) (comments st) (avatars st)
        (authError st) (authSuccess st).
Definition setLikes (l : gmap jsstring Z) (st : AppState) : AppState :=
  mkApp (currentUser st) l (userLikes st) (comments st) (avatars st)
        (authError st) (authSuccess st).
Definition setUserLikes (ul : gmap jsstring (list jsstring)) (st : AppState) : AppState :=
  mkApp (currentUser st) (likes st) ul (comments st) (avatars st)
        (authError st) (authSuccess st).
Definition setComments (c : list Comment) (st : AppState) : AppState :=
  mkApp (currentUser st) (likes st) (userLikes st) c (avatars st)
        (authError st) (authSuccess st).
Definition setAvatars (a : gmap jsstring jsstring) (st : AppState) : AppState :=
  mkApp (currentUser st) (likes st) (userLikes st) (comments st) a
        (authError st) (authSuccess st).
Definition setAuthError (e : option jsstring) (st : AppState) : AppState :=
  mkApp (currentUser st) (likes st) (userLikes st) (comments st) (avatars st)
        e (authSuccess st).
Definition setAuthSuccess (m : option jsstring) (st : AppState) : AppState :=
  mkApp (currentUser st) (likes st) (userLikes st) (comments st) (avatars st)
        (authError st) m.

(** ** Dictionaries and [Object.prototype]

    [{}], an object spread and the result of [JSON.parse] are ordinary
    objects: a property that is not their own is looked up in
    [Object.prototype].  Of an inherited property the program can observe
    three things: it is not nullish, it has no [includes] method, and it
    may have a [length]. *)
Inductive Inherited :=
| BuiltinFunction (arity : Z)
| PrototypeObject.

(** The properties of [Object.prototype] (ECMA-262 20.1.3 and B.2.2): the
    built-in functions with their [length], and the accessor [__proto__],
    whose getter returns [Object.prototype] itself. *)
Definition Object_prototype : list (jsstring * Inherited) := [
  (js "constructor", BuiltinFunction 1);
  (js "hasOwnProperty", BuiltinFunction 1);
  (js "isPrototypeOf", BuiltinFunction 1);
  (js "propertyIsEnumerable", BuiltinFunction 1);
  (js "toLocaleString", BuiltinFunction 0);
  (js "toString", BuiltinFunction 0);
  (js "valueOf", BuiltinFunction 0);
  (js "__defineGetter__", BuiltinFunction 2);
  (js "__defineSetter__", BuiltinFunction 2);
  (js "__lookupGetter__", BuiltinFunction 1);
  (js "__lookupSetter__", BuiltinFunction 1);
  (js "__proto__", PrototypeObject)
].

Definition inherited (k : jsstring) : option Inherited :=
  foldr (λ kv r, if decide (kv.1 = k) then Some kv.2 else r) None Object_prototype.

(** [o[k] ?? d]: the own property, else the inherited one, else [d]. *)
Definition get_or {A} (o : gmap jsstring A) (k : jsstring) (d : A) : A + Inherited :=
  match o !! k with
  | Some a => inl a
  | None =>
      match inherited k with
      | Some p => inr p
      | None => inl d
      end
  end.

(** How a call ends: with a value, or with a thrown [TypeError]. *)
Inductive Completion (A : Type) :=
| Normal (a : A)
| TypeError.
Arguments Normal {A} a.
Arguments TypeError {A}.

(** ** Like toggle *)

(** [Array.prototype.includes] on an array of strings. *)
Definition includes (x : jsstring) (l : list jsstring) : bool :=
  bool_decide (x ∈ l).

(** The call [toggleLike(videoId)].  When [userLikes[username]] is an
    inherited property, [existingForUser.includes] is [undefined] and
    calling it throws, before any setter has been called. *)
Definition toggleLike_call (vid : jsstring) (st : AppState) : Completion AppState :=
  match currentUser st with
  | None =>
      Normal
        (setAuthSuccess None
           (setAuthError (Some (js "You need to be logged in to like videos.")) st))
  | Some cu =>
      let name := username cu in
      match get_or (userLikes st) name [] with
      | inr _ => TypeError
      | inl existingForUser =>
          let hasLiked := includes vid existingForUser in
          let newUserLikes :=
            <[name := if hasLiked
                      then filter (λ id, id ≠ vid) existingForUser
                      else existingForUser ++ [vid]]> (userLikes st) in
          let currentCount := default 0 (likes st !! vid) in
          let newLikes :=
            <[vid := if hasLiked then Z.max 0 (currentCount - 1)
                     else currentCount + 1]> (likes st) in
          Normal (setLikes newLikes (setUserLikes newUserLikes st))
      end
  end.

(** The state that the handler leaves: a call that throws has set
    nothing. *)
Definition toggleLike (vid : jsstring) (st : AppState) : AppState :=
  match toggleLike_call vid st with
  | Normal st' => st'
  | TypeError => st
  end.

Definition likesForVideo (st : AppState) (vid : jsstring) : Z :=
  default 0 (likes st !! vid).

(** Called while rendering the card; it throws on an inherited property
    as [toggleLike] does. *)
Definition userHasLiked (st : AppState) (vid : jsstring) : Completion bool :=
  match currentUser st with
  | None => Normal false
  | Some cu =>
      match get_or (userLikes st) (username cu) [] with
      | inl list => Normal (includes vid list)
      | inr _ => TypeError
      end
  end.

(** [list.length]: [None] is [undefined], the [length] of
    [Object.prototype]. *)
Definition totalLikesByUser (st : AppState) (name : jsstring) : option Z :=
  match get_or (userLikes st) name [] with
  | inl list => Some (Z.of_nat (length list))
  | inr (BuiltinFunction arity) => Some arity
  | inr PrototypeObject => None
  end.

Definition totalCommentsByUser (st : AppState) (name : jsstring) : Z :=
  Z.of_nat (length (filter (λ c, author c = name) (comments st))).

(** ** Comment submission *)

(** WhiteSpace and LineTerminator code units, the ones
    [String.prototype.trim] strips. *)
Definition is_trimmed_unit (c : code_unit) : bool :=
  bool_decide (c ∈ [9; 10; 11; 12; 13; 32; 160; 5760; 8232; 8233; 8239;
                    8287; 12288; 65279]%N)
  || ((8192 <=? c)%N && (c <=? 8202)%N).

Fixpoint trimStart (s : jsstring) : jsstring :=
  match s with
  | [] => []
  | c :: s' => if is_trimmed_unit c then trimStart s' else s
  end.

Definition trimEnd (s : jsstring) : jsstring := reverse (trimStart (reverse s)).

Definition trim (s : jsstring) : jsstring := trimEnd (trimStart s).

(** The code units of a decimal numeral, most significant digit first. *)
Fixpoint uint_units (d : Decimal.uint) : jsstring :=
  match d with
  | Decimal.Nil => []
  | Decimal.D0 d' => 48%N :: uint_units d'
  | Decimal.D1 d' => 49%N :: uint_units d'
  | Decimal.D2 d' => 50%N :: uint_units d'
  | Decimal.D3 d' => 51%N :: uint_units d'
  | Decimal.D4 d' => 52%N :: uint_units d'
  | Decimal.D5 d' => 53%N :: uint_units d'
  | Decimal.D6 d' => 54%N :: uint_units d'
  | Decimal.D7 d' => 55%N :: uint_units d'
  | Decimal.D8 d' => 56%N :: uint_units d'
  | Decimal.D9 d' => 57%N :: uint_units d'
  end.

Definition N_toString (n : N) : jsstring := uint_units (N.to_uint n).

(** [Number.prototype.toString] on an integer (as a template literal
    applies it). *)
Definition Number_toString (z : Z) : jsstring :=
  if z <? 0 then 45%N :: N_toString (Z.abs_N z) else N_toString (Z.abs_N z).

(** The two clock readings a submission makes: [Date.now()] and
    [new Date().toISOString()]. *)
Record Clock := mkClock {
  Date_now : Z;
  Date_toISOString : jsstring;
}.

Definition handleAddComment (clk : Clock) (vid txt : jsstring) (st : AppState)
  : AppState :=
  match currentUser st with
  | None =>
      setAuthSuccess None
        (setAuthError (Some (js "You need to be logged in to comment.")) st)
  | Some cu =>
      let trimmed := trim txt in
      if negb (truthy trimmed) then st
      else
        let newComment :=
          mkComment (vid ++ js "-" ++ Number_toString (Date_now clk))
                    vid (username cu) trimmed (Date_toISOString clk) in
        setComments (comments st ++ [newComment]) st
  end.

(** The relational operators on strings compare code units
    lexicographically. *)
Fixpoint str_lt (a b : jsstring) : bool :=
  match a, b with
  | _, [] => false
  | [], _ :: _ => true
  | x :: a', y :: b' =>
      if (x <? y)%N then true
      else if (y <? x)%N then false
      else str_lt a' b'
  end.

Definition str_gt (a b : jsstring) : bool := str_lt b a.

(** ** Presenting the comments of a video *)

(** [Array.prototype.sort].  ECMAScript fixes the result only for a
    consistent comparator; for any other the order is left to the engine.
    The comparator of [commentsForVideo] never returns 0, so the engine's
    algorithm is part of the program's behaviour.  This is V8's (Chrome,
    Node): find the initial run, reversing it when it is descending, then
    insert the remaining elements by binary search.  V8 sorts an array of
    fewer than 64 elements this way in full; longer arrays are cut into
    such runs and merged, which is not modelled. *)
Section ArraySort.
Context {A : Type} (comparefn : A → A → Z).

(** The elements after [prev] that continue the run, and what is left. *)
Fixpoint extendRun (isDescending : bool) (prev : A) (rest : list A)
  : list A * list A :=
  match rest with
  | [] => ([], [])
  | cur :: rest' =>
      let order := comparefn cur prev in
      if (if isDescending then 0 <=? order else order <? 0)
      then ([], rest)
      else let '(run, tl) := extendRun isDescending cur rest' in
           (cur :: run, tl)
  end.

Definition countAndMakeRun (l : list A) : list A * list A :=
  match l with
  | elementHigh :: elementLow :: rest =>
      let isDescending := comparefn elementLow elementHigh <? 0 in
      let '(run, tl) := extendRun isDescending elementLow rest in
      let whole := elementHigh :: elementLow :: run in
      (if isDescending then reverse whole else whole, tl)
  | _ => (l, [])
  end.

(** The insertion point of [pivot] in the sorted prefix [work]. *)
Fixpoint insertionPoint (fuel : nat) (work : list A) (pivot : A)
         (left right : nat) : nat :=
  match fuel with
  | O => left
  | S fuel' =>
      if decide (left < right)%nat then
        let mid := (left + (right - left) / 2)%nat in
        match work !! mid with
        | Some x =>
            if comparefn pivot x <? 0
            then insertionPoint fuel' work pivot left mid
            else insertionPoint fuel' work pivot (mid + 1)%nat right
        | None => left
        end
      else left
  end.

Definition binaryInsert (work : list A) (pivot : A) : list A :=
  let left := insertionPoint (S (length work)) work pivot 0 (length work) in
  take left work ++ pivot :: drop left work.

Definition binaryInsertionSort (run rest : list A) : list A :=
  foldl binaryInsert run rest.

Definition Array_sort (l : list A) : list A :=
  let '(run, rest) := countAndMakeRun l in
  binaryInsertionSort run rest.
End ArraySort.

Definition commentsForVideo (st : AppState) (vid : jsstring) : list Comment :=
  Array_sort (λ a b, if str_gt (createdAt a) (createdAt b) then 1 else -1)
             (filter (λ c, videoId c = vid) (comments st)).

(** ** Deriving the username of a session *)

(** [String.prototype.split] with a one-unit separator. *)
Fixpoint split (sep : code_unit) (s : jsstring) : list jsstring :=
  match s with
  | [] => [[]]
  | c :: s' =>
      if decide (c = sep) then [] :: split sep s'
      else match split sep s' with
           | seg :: segs => (c :: seg) :: segs
           | [] => [[c]]
           end
  end.

Definition at_sign : code_unit := 64%N.

Definition deriveUsername (email : option jsstring) : jsstring :=
  match email with
  | None => js "mystery-creature"
  | Some e =>
      if negb (truthy e) then js "mystery-creature"
      else or_else (head (split at_sign e)) e
  end.

(** What the program reads of the identity service's user object.  A
    field that is [undefined] or [null] is [None]; a [username] metadata
    entry that is not a string is outside the model. *)
Record UserMetadata := mkUserMetadata {
  md_username : option jsstring;
}.

Record SessionUser := mkSessionUser {
  su_id : jsstring;
  su_email : option jsstring;
  su_user_metadata : option UserMetadata;
}.

(** [(u.user_metadata && u.user_metadata.username) || deriveUsername(u.email ?? null)] *)
Definition sessionUsername (u : SessionUser) : jsstring :=
  or_else (su_user_metadata u ≫= md_username) (deriveUsername (su_email u)).

Definition userOfSession (u : SessionUser) : CurrentUser :=
  mkCurrentUser (su_id u) (default [] (su_email u)) (sessionUsername u).

(** The [onAuthStateChange] callback. *)
Definition onAuthStateChange (session : option SessionUser) (st : AppState)
  : AppState :=
  match session with
  | Some u => setCurrentUser (Some (userOfSession u)) st
  | None => setCurrentUser None st
  end.

Definition handleLogout (st : AppState) : AppState :=
  setAuthSuccess (Some (js "You have been logged out.")) (setCurrentUser None st).

(** The [reader.onload] callback of [handleAvatarChange]. *)
Definition handleAvatarLoaded (cu : CurrentUser) (dataUrl : jsstring)
           (st : AppState) : AppState :=
  setAvatars (<[user_id cu := dataUrl]> (avatars st)) st.

(** ** Navigation *)

Record NavState := mkNav {
  activeTab : TabKey;
  currentIndex : Z;
}.

Definition initial_nav : NavState := mkNav trending 0.

(** The direction argument of [cycleVideo], of type [1 | -1]. *)
Inductive Direction := forward | backward.

Definition direction_value (d : Direction) : Z :=
  match d with forward => 1 | backward => -1 end.

(** [a % b] on integers: the remainder takes the sign of the dividend, and
    a zero divisor gives [NaN], here [None]. *)
Definition js_rem (a b : Z) : option Z :=
  if decide (b = 0) then None else Some (Z.rem a b).

(** [l[i]] for an integer index: [undefined] out of range. *)
Definition array_get {A} (l : list A) (i : Z) : option A :=
  if decide (0 ≤ i) then l !! Z.to_nat i else None.

(** The catalogue is a module constant, [ALL_VIDEOS]; the navigation code
    only filters it, and is embedded over an arbitrary catalogue so that
    lists of every length can be discussed.  Wheel deltas and pointer
    coordinates are numbers of which only the order matters; they are
    taken to be integers. *)
Section Navigation.
Variable videos : list Video.

Definition in_tab (tab : TabKey) (v : Video) : bool :=
  match tab with
  | trending => bool_decide (category v = TRENDING)
  | your => bool_decide (category v = YOUR)
  end.

Definition filteredList (tab : TabKey) : list Video :=
  filter (λ v, in_tab tab v = true) videos.

Definition filteredLength (tab : TabKey) : Z :=
  Z.of_nat (length (filteredList tab)).

(** The updater that [cycleVideo] passes to [setCurrentIndex]. *)
Definition cycleVideo_next (tab : TabKey) (direction : Direction) (prev : Z)
  : option Z :=
  let len := if decide (filteredLength tab = 0) then 1 else filteredLength tab in
  js_rem (prev + direction_value direction + len) len.

Definition cycleVideo (direction : Direction) (st : NavState) : option NavState :=
  mkNav (activeTab st) <$> cycleVideo_next (activeTab st) direction (currentIndex st).

Definition setActiveTab (tab : TabKey) (st : NavState) : NavState :=
  mkNav tab (currentIndex st).

(** The effect that runs after a render in which the tab or the index
    changed. *)
Definition indexEffect (st : NavState) : NavState :=
  if decide (filteredLength (activeTab st) ≤ currentIndex st)
  then mkNav (activeTab st) 0
  else st.

Definition handleWheel (deltaY : Z) (st : NavState) : NavState :=
  if decide (Z.abs deltaY < 30) then st
  else if decide (0 < deltaY ∧ activeTab st = trending) then setActiveTab your st
  else if decide (deltaY < 0 ∧ activeTab st = your) then setActiveTab trending st
  else st.

(** [handleTouchEnd] for a touch that ended at [(x1, y1)], with the
    content of [touchStartRef]. *)
Definition handleTouchEnd (touchStart : option (Z * Z)) (x1 y1 : Z) (st : NavState)
  : option NavState :=
  match touchStart with
  | None => Some st
  | Some (x0, y0) =>
      let dx := x1 - x0 in
      let dy := y1 - y0 in
      let absDx := Z.abs dx in
      let absDy := Z.abs dy in
      if decide (absDx < absDy ∧ 40 < absDy) then
        if decide (0 < dy ∧ activeTab st = your) then Some (setActiveTab trending st)
        else if decide (dy < 0 ∧ activeTab st = trending) then Some (setActiveTab your st)
        else Some st
      else if decide (40 < absDx) then
        if decide (dx < 0) then cycleVideo forward st else cycleVideo backward st
      else Some st
  end.

(** [currentList[currentIndex] ?? currentList[0] ?? null] *)
Definition currentVideo (st : NavState) : option Video :=
  match array_get (filteredList (activeTab st)) (currentIndex st) with
  | Some v => Some v
  | None => head (filteredList (activeTab st))
  end.

(** Whether the video card, with its click zones, is rendered. *)
Definition card_rendered (st : NavState) : bool :=
  bool_decide (is_Some (currentVideo st)).

(** [handleMediaClick] of the rendered card: a click at horizontal
    offset [clickX] on a surface of width [width]; [clickX < width / 2]
    is written without the division. *)
Definition handleMediaClick (clickX width : Z) (st : NavState) : option NavState :=
  if decide (2 * clickX < width) then cycleVideo backward st
  else cycleVideo forward st.

(** User events that touch the navigation state. *)
Inductive NavEvent :=
| TabClick (tab : TabKey)
| Wheel (deltaY : Z)
| TouchEnd (touchStart : option (Z * Z)) (x1 y1 : Z)
| MediaClick (clickX width : Z)
| CardNext
| CardPrev.

Definition handle (ev : NavEvent) (st : NavState) : option NavState :=
  match ev with
  | TabClick tab => Some (setActiveTab tab st)
  | Wheel deltaY => Some (handleWheel deltaY st)
  | TouchEnd touchStart x1 y1 => handleTouchEnd touchStart x1 y1 st
  | MediaClick clickX width => handleMediaClick clickX width st
  | CardNext => cycleVideo forward st
  | CardPrev => cycleVideo backward st
  end.

(** One update: the handler of the event, then the index effect of the
    render it causes. *)
Definition nav_step (ev : NavEvent) (st : NavState) : option NavState :=
  indexEffect <$> handle ev st.

Inductive nav_reachable : NavState → Prop :=
| nav_reach_init : nav_reachable (indexEffect initial_nav)
| nav_reach_step ev st st' :
    nav_reachable st → nav_step ev st = Some st' → nav_reachable st'.

(** [n] consecutive "next" operations. *)
Fixpoint next_times (n : nat) (st : NavState) : option NavState :=
  match n with
  | O => Some st
  | S n' => nav_step CardNext st ≫= next_times n'
  end.
End Navigation.

(** ** Persistence *)

(** The values that [JSON.stringify] writes and [JSON.parse] returns.  An
    object is the association list of its own properties; numbers are the
    integers. *)
#[local] Unset Elimination Schemes.
Inductive jsvalue :=
| JNull
| JBool (b : bool)
| JNum (z : Z)
| JStr (s : jsstring)
| JArr (elements : list jsvalue)
| JObj (members : list (jsstring * jsvalue)).
#[local] Set Elimination Schemes.

(** No object of the value has two properties of the same name. *)
Fixpoint wf_value (v : jsvalue) : Prop :=
  match v with
  | JArr elements => foldr (λ e P, wf_value e ∧ P) True elements
  | JObj members =>
      NoDup (fst <$> members) ∧ foldr (λ kv P, wf_value (snd kv) ∧ P) True members
  | _ => True
  end.

(** Induction on values through their nested lists. *)
Section jsvalue_induction.
Variable P : jsvalue → Prop.
Hypothesis Hnull : P JNull.
Hypothesis Hbool : ∀ b, P (JBool b).
Hypothesis Hnum : ∀ z, P (JNum z).
Hypothesis Hstr : ∀ s, P (JStr s).
Hypothesis Harr : ∀ l, Forall P l → P (JArr l).
Hypothesis Hobj : ∀ m, Forall (λ kv, P (snd kv)) m → P (JObj m).

Fixpoint jsvalue_ind (v : jsvalue) : P v :=
  match v with
  | JNull => Hnull
  | JBool b => Hbool b
  | JNum z => Hnum z
  | JStr s => Hstr s
  | JArr l =>
      Harr l ((fix go (l : list jsvalue) : Forall P l :=
                 match l with
                 | [] => @List.Forall_nil _ P
                 | e :: l' => @List.Forall_cons _ P e l' (jsvalue_ind e) (go l')
                 end) l)
  | JObj m =>
      Hobj m ((fix go (m : list (jsstring * jsvalue))
                 : Forall (λ kv, P (snd kv)) m :=
                 match m with
                 | [] => @List.Forall_nil _ _
                 | kv :: m' => @List.Forall_cons _ _ kv m' (jsvalue_ind (snd kv)) (go m')
                 end) m)
  end.
End jsvalue_induction.

(** The number of nodes of a value, which bounds the depth of the calls
    that read it back. *)
Fixpoint value_size (v : jsvalue) : nat :=
  match v with
  | JArr l => S (foldr (λ e n, S (value_size e + n)) 0%nat l)
  | JObj m => S (foldr (λ kv n, S (value_size (snd kv) + n)) 0%nat m)
  | _ => 1
  end.

(** The four persisted cells as values. *)
Definition likes_value (m : gmap jsstring Z) : jsvalue :=
  JObj (prod_map id JNum <$> map_to_list m).

Definition userLikes_value (m : gmap jsstring (list jsstring)) : jsvalue :=
  JObj (prod_map id (λ l, JArr (JStr <$> l)) <$> map_to_list m).

Definition comment_value (c : Comment) : jsvalue :=
  JObj [ (js "id", JStr (comment_id c));
         (js "videoId", JStr (videoId c));
         (js "author", JStr (author c));
         (js "text", JStr (text c));
         (js "createdAt", JStr (createdAt c)) ].

Definition comments_value (l : list Comment) : jsvalue :=
  JArr (comment_value <$> l).

Definition avatars_value (m : gmap jsstring jsstring) : jsvalue :=
  JObj (prod_map id JStr <$> map_to_list m).

Definition LIKES_KEY : jsstring := js "wowsite_likes_v1".
Definition USER_LIKES_KEY : jsstring := js "wowsite_userlikes_v1".
Definition COMMENTS_KEY : jsstring := js "wowsite_comments_v1".
Definition USER_AVATARS_KEY : jsstring := js "wowsite_user_avatars_v1".

(** The browser's [localStorage]: its entries and the number of code units
    the browser lets the origin keep (a few million in a normal session,
    none at all in some private modes). *)
Record Storage := mkStorage {
  items : gmap jsstring jsstring;
  quota : N;
}.

Definition storage_used (m : gmap jsstring jsstring) : nat :=
  map_fold (λ k v n, (length k + length v + n)%nat) 0%nat m.

Definition Storage_getItem (key : jsstring) (ls : Storage) : option jsstring :=
  items ls !! key.

(** [None]: the call throws [QuotaExceededError] and stores nothing. *)
Definition Storage_setItem (key value : jsstring) (ls : Storage) : option Storage :=
  let items' := <[key := value]> (items ls) in
  if decide (N.of_nat (storage_used items') ≤ quota ls)%N
  then Some (mkStorage items' (quota ls))
  else None.

(** Where the module runs: without a [window] (server rendering), or in a
    browser whose [localStorage] is either usable or throws on access. *)
Record Host := mkHost {
  has_window : bool;
  localStorage : option Storage;
}.

(** [try { body } catch { handler }], with a throwing [body] as [None]. *)
Definition try_catch {A} (body : option A) (handler : A) : A :=
  default handler body.

Section Storage.
(** The engine's [JSON.stringify], and [JSON.parse] with [None] for a
    thrown [SyntaxError]. *)
Variable JSON_stringify : jsvalue → jsstring.
Variable JSON_parse : jsstring → option jsvalue.

Definition loadFromStorage (h : Host) (key : jsstring) (fallback : jsvalue)
  : jsvalue :=
  if negb (has_window h) then fallback
  else
    try_catch
      (ls ← localStorage h;
       match Storage_getItem key ls with
       | None => Some fallback
       | Some raw =>
           if negb (truthy raw) then Some fallback else JSON_parse raw
       end)
      fallback.

Definition saveToStorage (h : Host) (key : jsstring) (value : jsvalue) : Host :=
  if negb (has_window h) then h
  else
    try_catch
      (ls ← localStorage h;
       ls' ← Storage_setItem key (JSON_stringify value) ls;
       Some (mkHost (has_window h) (Some ls')))
      h.
End Storage.

(** ** A reference [JSON]

    [JSON.stringify] without indentation and [JSON.parse] without reviver,
    after ECMA-262, on the values above.  The reader accepts the JSON
    grammar except number literals with a fraction or an exponent, which
    have no counterpart among the integers. *)
Module JSON.

Definition is_leading_surrogate (c : code_unit) : bool :=
  ((55296 <=? c) && (c <=? 56319))%N.
Definition is_trailing_surrogate (c : code_unit) : bool :=
  ((56320 <=? c) && (c <=? 57343))%N.

Definition hex_digit (n : N) : code_unit :=
  if (n <? 10)%N then (48 + n)%N else (87 + n)%N.

(** [\uXXXX] with lower-case digits. *)
Definition unicodeEscape (c : code_unit) : jsstring :=
  [92; 117; hex_digit (c / 4096 mod 16); hex_digit (c / 256 mod 16);
   hex_digit (c / 16 mod 16); hex_digit (c mod 16)]%N.

(** What QuoteJSONString writes for a code unit that is not part of a
    surrogate pair. *)
Definition quote_unit (c : code_unit) : jsstring :=
  if decide (c = 8%N) then js "\b"
  else if decide (c = 9%N) then js "\t"
  else if decide (c = 10%N) then js "\n"
  else if decide (c = 12%N) then js "\f"
  else if decide (c = 13%N) then js "\r"
  else if decide (c = 34%N) then [92; 34]%N
  else if decide (c = 92%N) then js "\\"
  else if (c <? 32)%N || is_leading_surrogate c || is_trailing_surrogate c
       then unicodeEscape c
  else [c].

Fixpoint quote_units (s : jsstring) : jsstring :=
  match s with
  | [] => []
  | c :: s' =>
      if is_leading_surrogate c then
        match s' with
        | d :: s'' =>
            if is_trailing_surrogate d then c :: d :: quote_units s''
            else unicodeEscape c ++ quote_units s'
        | [] => unicodeEscape c
        end
      else quote_unit c ++ quote_units s'
  end.

Definition quote (s : jsstring) : jsstring := 34%N :: quote_units s ++ [34%N].

Fixpoint stringify (v : jsvalue) : jsstring :=
  match v with
  | JNull => js "null"
  | JBool true => js "true"
  | JBool false => js "false"
  | JNum z => Number_toString z
  | JStr s => quote s
  | JArr elements =>
      91%N ::
      (fix items (l : list jsvalue) : jsstring :=
         match l with
         | [] => [93%N]
         | e :: l' =>
             stringify e ++
             match l' with [] => [93%N] | _ :: _ => 44%N :: items l' end
         end) elements
  | JObj members =>
      123%N ::
      (fix items (l : list (jsstring * jsvalue)) : jsstring :=
         match l with
         | [] => [125%N]
         | kv :: l' =>
             quote (fst kv) ++ 58%N :: stringify (snd kv) ++
             match l' with [] => [125%N] | _ :: _ => 44%N :: items l' end
         end) members
  end.

(** *** Reading *)

Definition is_ws (c : code_unit) : bool :=
  bool_decide (c ∈ [9; 10; 13; 32]%N).

Fixpoint skip_ws (s : jsstring) : jsstring :=
  match s with
  | c :: s' => if is_ws c then skip_ws s' else s
  | [] => []
  end.

Definition digit_of (c : code_unit) : option (Decimal.uint → Decimal.uint) :=
  if decide (c = 48%N) then Some Decimal.D0
  else if decide (c = 49%N) then Some Decimal.D1
  else if decide (c = 50%N) then Some Decimal.D2
  else if decide (c = 51%N) then Some Decimal.D3
  else if decide (c = 52%N) then Some Decimal.D4
  else if decide (c = 53%N) then Some Decimal.D5
  else if decide (c = 54%N) then Some Decimal.D6
  else if decide (c = 55%N) then Some Decimal.D7
  else if decide (c = 56%N) then Some Decimal.D8
  else if decide (c = 57%N) then Some Decimal.D9
  else None.

Fixpoint read_digits (s : jsstring) : Decimal.uint * jsstring :=
  match s with
  | [] => (Decimal.Nil, [])
  | c :: s' =>
      match digit_of c with
      | Some d => let '(ds, r) := read_digits s' in (d ds, r)
      | None => (Decimal.Nil, s)
      end
  end.

#[local] Instance uint_eq_dec : EqDecision Decimal.uint := Decimal.uint_eq_dec.

(** An integer literal: [0], or digits that do not start with [0]. *)
Definition read_nat (s : jsstring) : option (N * jsstring) :=
  let '(ds, r) := read_digits s in
  if decide (Decimal.unorm ds = ds) then Some (N.of_uint ds, r) else None.

Definition hex_value (c : code_unit) : option N :=
  if ((48 <=? c) && (c <=? 57))%N then Some (c - 48)%N
  else if ((97 <=? c) && (c <=? 102))%N then Some (c - 87)%N
  else if ((65 <=? c) && (c <=? 70))%N then Some (c - 55)%N
  else None.

Definition unescape (e : code_unit) : option code_unit :=
  if decide (e = 34%N) then Some 34%N
  else if decide (e = 92%N) then Some 92%N
  else if decide (e = 47%N) then Some 47%N
  else if decide (e = 98%N) then Some 8%N
  else if decide (e = 102%N) then Some 12%N
  else if decide (e = 110%N) then Some 10%N
  else if decide (e = 114%N) then Some 13%N
  else if decide (e = 116%N) then Some 9%N
  else None.

(** The characters of a string literal after its opening quote. *)
Fixpoint read_string (s : jsstring) : option (jsstring * jsstring) :=
  match s with
  | [] => None
  | c :: s' =>
      if decide (c = 34%N) then Some ([], s')
      else if decide (c = 92%N) then
        match s' with
        | [] => None
        | e :: s'' =>
            if decide (e = 117%N) then
              match s'' with
              | h1 :: h2 :: h3 :: h4 :: s3 =>
                  a ← hex_value h1; b ← hex_value h2;
                  c ← hex_value h3; d ← hex_value h4;
                  '(str, r) ← read_string s3;
                  Some ((((a * 16 + b) * 16 + c) * 16 + d)%N :: str, r)
              | _ => None
              end
            else
              u ← unescape e;
              '(str, r) ← read_string s'';
              Some (u :: str, r)
        end
      else if (c <? 32)%N then None
      else '(str, r) ← read_string s'; Some (c :: str, r)
  end.

Fixpoint strip_prefix (p s : jsstring) : option jsstring :=
  match p, s with
  | [], _ => Some s
  | a :: p', b :: s' => if decide (a = b) then strip_prefix p' s' else None
  | _ :: _, [] => None
  end.

(** Defining a property that is already there replaces its value. *)
Fixpoint set_member (k : jsstring) (v : jsvalue) (m : list (jsstring * jsvalue))
  : list (jsstring * jsvalue) :=
  match m with
  | [] => [(k, v)]
  | kv :: m' => if decide (fst kv = k) then (k, v) :: m' else kv :: set_member k v m'
  end.

Definition make_object (l : list (jsstring * jsvalue)) : jsvalue :=
  JObj (foldl (λ m kv, set_member (fst kv) (snd kv) m) [] l).

Fixpoint read_value (fuel : nat) (s : jsstring) : option (jsvalue * jsstring) :=
  match fuel with
  | O => None
  | S fuel' =>
      match skip_ws s with
      | [] => None
      | c :: s' =>
          if decide (c = 34%N) then
            '(str, r) ← read_string s'; Some (JStr str, r)
          else if decide (c = 91%N) then
            match skip_ws s' with
            | d :: r =>
                if decide (d = 93%N) then Some (JArr [], r)
                else '(l, r') ← read_elements fuel' s'; Some (JArr l, r')
            | [] => None
            end
          else if decide (c = 123%N) then
            match skip_ws s' with
            | d :: r =>
                if decide (d = 125%N) then Some (JObj [], r)
                else '(l, r') ← read_members fuel' s'; Some (make_object l, r')
            | [] => None
            end
          else if decide (c = 45%N) then
            '(n, r) ← read_nat s'; Some (JNum (- Z.of_N n), r)
          else if decide (is_Some (digit_of c)) then
            '(n, r) ← read_nat (c :: s'); Some (JNum (Z.of_N n), r)
          else if decide (c = 110%N) then
            r ← strip_prefix (js "null") (c :: s'); Some (JNull, r)
          else if decide (c = 116%N) then
            r ← strip_prefix (js "true") (c :: s'); Some (JBool true, r)
          else if decide (c = 102%N) then
            r ← strip_prefix (js "false") (c :: s'); Some (JBool false, r)
          else None
      end
  end
with read_elements (fuel : nat) (s : jsstring)
  : option (list jsvalue * jsstring) :=
  match fuel with
  | O => None
  | S fuel' =>
      '(v, s1) ← read_value fuel' s;
      match skip_ws s1 with
      | c :: s2 =>
          if decide (c = 44%N) then
            '(l, r) ← read_elements fuel' s2; Some (v :: l, r)
          else if decide (c = 93%N) then Some ([v], s2)
          else None
      | [] => None
      end
  end
with read_members (fuel : nat) (s : jsstring)
  : option (list (jsstring * jsvalue) * jsstring) :=
  match fuel with
  | O => None
  | S fuel' =>
      match skip_ws s with
      | q :: s0 =>
          if decide (q = 34%N) then
            '(k, s1) ← read_string s0;
            match skip_ws s1 with
            | c1 :: s2 =>
                if decide (c1 = 58%N) then
                  '(v, s3) ← read_value fuel' s2;
                  match skip_ws s3 with
                  | c3 :: s4 =>
                      if decide (c3 = 44%N) then
                        '(l, r) ← read_members fuel' s4; Some ((k, v) :: l, r)
                      else if decide (c3 = 125%N) then Some ([(k, v)], s4)
                      else None
                  | [] => None
                  end
                else None
            | [] => None
            end
          else None
      | [] => None
      end
  end.

Definition parse (s : jsstring) : option jsvalue :=
  '(v, r) ← read_value (S (length s)) s;
  match skip_ws r with [] => Some v | _ :: _ => None end.

(** *** Vocabulary of the round trip *)

(** What [stringify] writes after the opening bracket of an array. *)
Fixpoint array_tail (l : list jsvalue) : jsstring :=
  match l with
  | [] => [93%N]
  | e :: l' =>
      stringify e ++
      match l' with [] => [93%N] | _ :: _ => 44%N :: array_tail l' end
  end.

(** What [stringify] writes after the opening brace of an object. *)
Fixpoint object_tail (l : list (jsstring * jsvalue)) : jsstring :=
  match l with
  | [] => [125%N]
  | kv :: l' =>
      quote (fst kv) ++ 58%N :: stringify (snd kv) ++
      match l' with [] => [125%N] | _ :: _ => 44%N :: object_tail l' end
  end.

(** A text that cannot continue a number. *)
Definition ends_number (s : jsstring) : Prop :=
  match s with
  | [] => True
  | c :: _ => digit_of c = None
  end.

(** The first unit of a value's text decides which reader takes it. *)
Definition starts_value (c : code_unit) : bool :=
  bool_decide (c ∈ [34; 45; 91; 102; 110; 116; 123]%N)
  || ((48 <=? c)%N && (c <=? 57)%N).

(** The statement proved of every value: read back with enough fuel,
    whatever follows, as long as what follows cannot extend a number. *)
Definition reads_back (v : jsvalue) : Prop :=
  ∀ fuel rest,
    (value_size v ≤ fuel)%nat → ends_number rest →
    read_value fuel (stringify v ++ rest) = Some (v, rest).

End JSON.

(** ** Sign-in form *)

Inductive AuthMode := login | signup.

(** What the identity service answered to a sign-up or sign-in request. *)
Inductive AuthResponse :=
| AuthFailed (message : jsstring)
| AuthOk (user : option SessionUser).

Definition handleAuthSubmit (mode : AuthMode) (emailInput passwordInput : jsstring)
           (resp : AuthResponse) (st : AppState) : AppState :=
  let st0 := setAuthSuccess None (setAuthError None st) in
  if negb (truthy (trim emailInput)) || negb (truthy (trim passwordInput))
  then setAuthError (Some (js "Enter both an email and password.")) st0
  else
    match resp, mode with
    | AuthFailed message, _ => setAuthError (Some message) st0
    | AuthOk (Some u), signup =>
        setAuthSuccess
          (Some (js "Account created. If email confirmation is enabled, please confirm before logging in from a new device."))
          (setCurrentUser (Some (userOfSession u)) st0)
    | AuthOk None, signup =>
        setAuthSuccess
          (Some (js "Sign-up request sent. Check your email if confirmation is required."))
          st0
    | AuthOk (Some u), login =>
        setAuthSuccess (Some (js "Welcome back! You are now signed in."))
                       (setCurrentUser (Some (userOfSession u)) st0)
    | AuthOk None, login => st0
    end.

(** The [Log in] / [Sign up] chips clear both messages. *)
Definition handleAuthModeClick (st : AppState) : AppState :=
  setAuthSuccess None (setAuthError None st).

(** ** Runs of the component *)

Inductive AppEvent :=
| AuthStateChange (session : option SessionUser)
| AuthSubmit (mode : AuthMode) (emailInput passwordInput : jsstring)
             (resp : AuthResponse)
| AuthModeClick
| Logout
| ToggleLike (vid : jsstring)
| AddComment (clk : Clock) (vid txt : jsstring)
| AvatarLoaded (cu : CurrentUser) (dataUrl : jsstring).

Definition app_step (ev : AppEvent) (st : AppState) : AppState :=
  match ev with
  | AuthStateChange session => onAuthStateChange session st
  | AuthSubmit mode e p resp => handleAuthSubmit mode e p resp st
  | AuthModeClick => handleAuthModeClick st
  | Logout => handleLogout st
  | ToggleLike vid => toggleLike vid st
  | AddComment clk vid txt => handleAddComment clk vid txt st
  | AvatarLoaded cu dataUrl => handleAvatarLoaded cu dataUrl st
  end.

(** ** Vocabulary of the properties *)

(** The number of usernames whose list of liked videos contains [vid]. *)
Definition likers (ul : gmap jsstring (list jsstring)) (vid : jsstring) : nat :=
  size (filter (λ kv, vid ∈ kv.2) ul).

(** The like-membership set of a username. *)
Definition likeSet (st : AppState) (name : jsstring) : gset jsstring :=
  list_to_set (default [] (userLikes st !! name)).

(** The list that [toggleLike] stores for the user whose list was [old]. *)
Definition toggled (vid : jsstring) (old : list jsstring) : list jsstring :=
  if includes vid old then filter (λ id, id ≠ vid) old else old ++ [vid].

Definition likes_consistent (st : AppState) : Prop :=
  ∀ vid, likesForVideo st vid = Z.of_nat (likers (userLikes st) vid)
         ∧ 0 ≤ likesForVideo st vid.

(** A comparator puts [a] before [b]. *)
Definition placed_before {A} (comparefn : A → A → Z) (a b : A) : Prop :=
  comparefn a b < 0.

(** Sorted by creation time, earliest first. *)
Definition createdAt_le (a b : Comment) : Prop :=
  str_gt (createdAt a) (createdAt b) = false.

(** The index is a position of the filtered list, or 0 when that list is
    too short. *)
Definition index_ok (videos : list Video) (st : NavState) : Prop :=
  0 ≤ currentIndex st
  ∧ (currentIndex st < filteredLength videos (activeTab st) ∨ currentIndex st = 0).

(** The part of an email before its first [@]: all of it when it has none. *)
Fixpoint local_part (e : jsstring) : jsstring :=
  match e with
  | [] => []
  | c :: e' => if decide (c = at_sign) then [] else c :: local_part e'
  end.

(** The derived username in the words of the specification: the metadata
    username when present, else the local part of the email when present,
    else the placeholder. *)
Definition spec_username (u : SessionUser) : jsstring :=
  match su_user_metadata u ≫= md_username with
  | Some name => name
  | None =>
      match su_email u with
      | Some e => local_part e
      | None => js "mystery-creature"
      end
  end.

(** The four persisted cells, each with the key and the default that the
    hydration effect passes to [loadFromStorage]. *)
Inductive Cell :=
| LikesCell (m : gmap jsstring Z)
| UserLikesCell (m : gmap jsstring (list jsstring))
| CommentsCell (l : list Comment)
| AvatarsCell (m : gmap jsstring jsstring).

Definition cell_value (c : Cell) : jsvalue :=
  match c with
  | LikesCell m => likes_value m
  | UserLikesCell m => userLikes_value m
  | CommentsCell l => comments_value l
  | AvatarsCell m => avatars_value m
  end.

Definition cell_key (c : Cell) : jsstring :=
  match c with
  | LikesCell _ => LIKES_KEY
  | UserLikesCell _ => USER_LIKES_KEY
  | CommentsCell _ => COMMENTS_KEY
  | AvatarsCell _ => USER_AVATARS_KEY
  end.

Definition cell_fallback (c : Cell) : jsvalue :=
  match c with
  | CommentsCell _ => JArr []
  | _ => JObj []
  end.

(** ** Sample data *)

Definition alice_session : SessionUser :=
  mkSessionUser (js "u-1") (Some (js "alice@example.com")) None.
Definition alice : CurrentUser := userOfSession alice_session.
Definition signed_in : AppState :=
  app_step (AuthStateChange (Some alice_session)) initial_state.
Definition liked_once : AppState :=
  app_step (ToggleLike (js "wowfinalfinal1")) signed_in.

Definition noon : Clock :=
  mkClock 1767268800000 (js "2026-01-01T12:00:00.000Z").
Definition same_instant_comments : AppState :=
  app_step (AddComment noon (js "wowfinalfinal1") (js "second"))
    (app_step (AddComment noon (js "wowfinalfinal1") (js "first")) signed_in).

Definition no_local_part : SessionUser :=
  mkSessionUser (js "u-2") (Some (js "@example.com")) None.
Definition empty_username : SessionUser :=
  mkSessionUser (js "u-3") (Some (js "bob@example.com"))
                (Some (mkUserMetadata (Some []))).
Definition carol_session : SessionUser :=
  mkSessionUser (js "u-4") (Some (js "carol@example.com"))
                (Some (mkUserMetadata (Some (js "caz")))).

Definition only_trending : list Video :=
  filter (λ v, category v = TRENDING) ALL_VIDEOS.
Definition three_and_one : list Video :=
  mkVideo (js "extra") (js "Extra") [] [] TRENDING :: take 3 ALL_VIDEOS.

(** A browser session that lets the origin store nothing. *)
Definition no_quota_host : Host := mkHost true (Some (mkStorage ∅ 0)).
Definition roomy_host : Host := mkHost true (Some (mkStorage ∅ 5000000)).
Definition one_like : gmap jsstring Z := {[ js "wowfinalfinal1" := 1 ]}.

(** ** More of the component *)

(** [currentAvatar]: the picture shown for the signed-in user. *)
Definition currentAvatar (st : AppState) : option jsstring :=
  match currentUser st with
  | None => None
  | Some cu =>
      match avatars st !! user_id cu with
      | Some dataUrl => if truthy dataUrl then Some dataUrl else None
      | None => None
      end
  end.

(** [handleSubmit] of the video card, on its [commentInput] cell: the new
    content of the cell and the state of the component. *)
Definition VideoCard_handleSubmit (clk : Clock) (vid commentInput : jsstring)
           (st : AppState) : jsstring * AppState :=
  if negb (truthy (trim commentInput)) then (commentInput, st)
  else ([], handleAddComment clk vid commentInput st).

(** What the hydration effect reads on mount. *)
Record Hydrated := mkHydrated {
  storedLikes : jsvalue;
  storedUserLikes : jsvalue;
  storedComments : jsvalue;
  storedAvatars : jsvalue;
}.

Section Effects.
Variable JSON_stringify : jsvalue → jsstring.
Variable JSON_parse : jsstring → option jsvalue.

Definition hydrationEffect (h : Host) : Hydrated :=
  mkHydrated (loadFromStorage JSON_parse h LIKES_KEY (JObj []))
             (loadFromStorage JSON_parse h USER_LIKES_KEY (JObj []))
             (loadFromStorage JSON_parse h COMMENTS_KEY (JArr []))
             (loadFromStorage JSON_parse h USER_AVATARS_KEY (JObj [])).

(** The four save effects, in the order of their declaration, after a
    render in which every cell changed. *)
Definition saveEffects (st : AppState) (h : Host) : Host :=
  let h1 := saveToStorage JSON_stringify h LIKES_KEY (likes_value (likes st)) in
  let h2 := saveToStorage JSON_stringify h1 USER_LIKES_KEY
              (userLikes_value (userLikes st)) in
  let h3 := saveToStorage JSON_stringify h2 COMMENTS_KEY
              (comments_value (comments st)) in
  saveToStorage JSON_stringify h3 USER_AVATARS_KEY (avatars_value (avatars st)).
End Effects.

(** ** Mounts, reloads and runs *)

(** [JSON.parse(raw) as T]: the cast checks nothing, and the state takes
    what the store held.  In a run the store is written by this program
    alone, so what is read back is the value of a cell, which the
    functions below turn back into that cell; a member of another shape
    has no counterpart in the typed cells and is left out. *)
Definition number_of_value (v : jsvalue) : option Z :=
  match v with JNum z => Some z | _ => None end.

Definition string_of_value (v : jsvalue) : option jsstring :=
  match v with JStr s => Some s | _ => None end.

Definition strings_of_value (v : jsvalue) : option (list jsstring) :=
  match v with JArr l => Some (omap string_of_value l) | _ => None end.

Definition dictionary_of_value {A} (f : jsvalue → option A) (v : jsvalue)
  : gmap jsstring A :=
  match v with
  | JObj members => list_to_map (omap (λ kv, pair kv.1 <$> f kv.2) members)
  | _ => ∅
  end.

Definition likes_of_value : jsvalue → gmap jsstring Z :=
  dictionary_of_value number_of_value.
Definition userLikes_of_value : jsvalue → gmap jsstring (list jsstring) :=
  dictionary_of_value strings_of_value.
Definition avatars_of_value : jsvalue → gmap jsstring jsstring :=
  dictionary_of_value string_of_value.

Definition member (k : jsstring) (members : list (jsstring * jsvalue))
  : option jsvalue :=
  snd <$> find (λ kv, bool_decide (kv.1 = k)) members.

Definition comment_of_value (v : jsvalue) : option Comment :=
  match v with
  | JObj m =>
      i ← member (js "id") m ≫= string_of_value;
      vid ← member (js "videoId") m ≫= string_of_value;
      a ← member (js "author") m ≫= string_of_value;
      t ← member (js "text") m ≫= string_of_value;
      c ← member (js "createdAt") m ≫= string_of_value;
      Some (mkComment i vid a t c)
  | _ => None
  end.

Definition comments_of_value (v : jsvalue) : list Comment :=
  match v with JArr l => omap comment_of_value l | _ => [] end.

(** The four setters that end the hydration effect, on the state of the
    first render. *)
Definition hydrate (stored : Hydrated) : AppState :=
  setAvatars (avatars_of_value (storedAvatars stored))
    (setComments (comments_of_value (storedComments stored))
       (setUserLikes (userLikes_of_value (storedUserLikes stored))
          (setLikes (likes_of_value (storedLikes stored)) initial_state))).

(** The component together with the browser it runs in. *)
Record World := mkWorld {
  app : AppState;
  browser : Host;
}.

(** A mount.  After the first render the effects run in the order of
    their declaration, each once: the hydration effect reads the store,
    then the four save effects write the cells of that render, which are
    still empty.  The setters of the hydration effect cause a second
    render, after which the save effects, whose cells changed, write
    again.  The session is handed over later, as an [AuthStateChange]. *)
Definition mount (h : Host) : World :=
  let stored := hydrationEffect JSON.parse h in
  let h1 := saveEffects JSON.stringify initial_state h in
  let st := hydrate stored in
  mkWorld st (saveEffects JSON.stringify st h1).

(** The save effect of one cell. *)
Definition saveEffect (c : Cell) (h : Host) : Host :=
  saveToStorage JSON.stringify h (cell_key c) (cell_value c).

(** The save effects that run after the render an event causes: those of
    the cells whose setter the handler called (a setter is always given a
    new object, so the effect runs whether or not the content differs).
    [toggleLike] calls [setUserLikes] and [setLikes] unless it returns
    early or throws, [handleAddComment] calls [setComments] unless it
    returns early, the avatar callback calls [setAvatars]; the other
    handlers set no persisted cell. *)
Definition effects_after (ev : AppEvent) (st : AppState) (h : Host) : Host :=
  let st' := app_step ev st in
  match ev with
  | ToggleLike vid =>
      match currentUser st, toggleLike_call vid st with
      | Some _, Normal _ =>
          saveEffect (UserLikesCell (userLikes st'))
            (saveEffect (LikesCell (likes st')) h)
      | _, _ => h
      end
  | AddComment clk vid txt =>
      match currentUser st with
      | Some _ =>
          if truthy (trim txt) then saveEffect (CommentsCell (comments st')) h
          else h
      | None => h
      end
  | AvatarLoaded _ _ => saveEffect (AvatarsCell (avatars st')) h
  | _ => h
  end.

Definition world_step (ev : AppEvent) (w : World) : World :=
  mkWorld (app_step ev (app w)) (effects_after ev (app w) (browser w)).

(** A first visit: the origin has stored nothing yet, or its store cannot
    be used at all. *)
Definition first_visit (h : Host) : Prop :=
  ∀ ls, localStorage h = Some ls → items ls = ∅.

(** The runs of the program in one browser: a mount on a first visit,
    then events and reloads in any order.  A reload mounts the component
    again on what the store holds by then.  (A render that throws unmounts
    the component, and no event reaches it before the next reload; the
    relation leaves such events in, so it covers every state the program
    can be in, and some it cannot.) *)
Inductive run : World → Prop :=
| run_open h : first_visit h → run (mount h)
| run_event ev w : run w → run (world_step ev w)
| run_reload w : run w → run (mount (browser w)).

Definition reachable (st : AppState) : Prop :=
  ∃ w, run w ∧ app w = st.

(** What holds of the cells of a state, and of the entries of a store. *)
Definition cells_hold (P : Cell → Prop) (st : AppState) : Prop :=
  P (LikesCell (likes st)) ∧ P (UserLikesCell (userLikes st))
  ∧ P (CommentsCell (comments st)) ∧ P (AvatarsCell (avatars st)).

Definition store_holds (P : Cell → Prop) (h : Host) : Prop :=
  ∀ ls key raw,
    localStorage h = Some ls → items ls !! key = Some raw →
    ∃ c, cell_key c = key ∧ P c ∧ raw = JSON.stringify (cell_value c).

(** No list of liked videos names a video twice. *)
Definition lists_NoDup (c : Cell) : Prop :=
  match c with
  | UserLikesCell m => ∀ name l, m !! name = Some l → NoDup l
  | _ => True
  end.

(** No count is negative. *)
Definition counts_nonneg (c : Cell) : Prop :=
  match c with
  | LikesCell m => ∀ vid n, m !! vid = Some n → 0 ≤ n
  | _ => True
  end.

(** The shape of a stored comment. *)
Definition comment_ok (c : Comment) : Prop :=
  text c ≠ [] ∧ trim (text c) = text c ∧ author c ≠ []
  ∧ (videoId c ++ js "-") `prefix_of` comment_id c.

Definition comments_ok (c : Cell) : Prop :=
  match c with
  | CommentsCell l => Forall comment_ok l
  | _ => True
  end.

Definition named (u : option CurrentUser) : Prop :=
  ∀ cu, u = Some cu → username cu ≠ [].

(** A store with room for the four empty entries, one like and one list
    of two liked videos, but not for a second count. *)
Definition small_store : Host := mkHost true (Some (mkStorage ∅ 147)).

(** Alice likes two videos; the store takes her list but not the second
    count.  Then the page is loaded again and her session is handed
    over. *)
Definition two_likes_run : World :=
  world_step (ToggleLike (js "wowfinalfinal2"))
    (world_step (ToggleLike (js "wowfinalfinal1"))
       (world_step (AuthStateChange (Some alice_session)) (mount small_store))).
Definition reloaded : World :=
  world_step (AuthStateChange (Some alice_session)) (mount (browser two_likes_run)).

(** The code units that the four entries of a state take in the store. *)
Definition entries_size (stringify : jsvalue → jsstring) (st : AppState) : nat :=
  (length LIKES_KEY + length (stringify (likes_value (likes st)))
   + (length USER_LIKES_KEY + length (stringify (userLikes_value (userLikes st))))
   + (length COMMENTS_KEY + length (stringify (comments_value (comments st))))
   + (length USER_AVATARS_KEY + length (stringify (avatars_value (avatars st)))))%nat.

(** A store with room for one small entry. *)
Definition tight_host : Host := mkHost true (Some (mkStorage ∅ 40)).
Definition two_likes : gmap jsstring Z :=
  {[ js "wowfinalfinal1" := 1; js "wowfinalfinal2" := 1 ]}.

Definition one_past_noon : Clock :=
  mkClock 1767268860000 (js "2026-01-01T12:01:00.000Z").
Definition two_comments : AppState :=
  app_step (AddComment one_past_noon (js "wowfinalfinal1") (js "second"))
    (app_step (AddComment noon (js "wowfinalfinal1") (js "first")) signed_in).


(** * Properties *)

(** ** Likes *)

Section likes_facts.
Implicit Types (ul : gmap jsstring (list jsstring)) (vid name : jsstring).

Lemma includes_spec vid (l : list jsstring) :
  includes vid l = true ↔ vid ∈ l.
Proof. unfold includes. apply bool_decide_eq_true. Qed.

Lemma likers_empty vid : likers ∅ vid = 0%nat.
Proof. unfold likers. by rewrite map_filter_empty, map_size_empty. Qed.

(** Replacing one user's list moves the count by that user's vote. *)
Lemma likers_insert ul name (l' : list jsstring) vid :
  Z.of_nat (likers (<[name := l']> ul) vid)
  = Z.of_nat (likers ul vid)
    + Z.b2z (includes vid l')
    - Z.b2z (includes vid (default [] (ul !! name))).
Proof.
  unfold likers, includes.
  set (P := λ kv : jsstring * list jsstring, vid ∈ kv.2).
  assert (Hold : is_Some (filter P ul !! name)
                 ↔ vid ∈ default [] (ul !! name)).
  { unfold is_Some. setoid_rewrite map_lookup_filter_Some. unfold P. simpl.
    destruct (ul !! name) as [l|]; simpl.
    - split; [intros (x & [= ->] & ?); done | eauto].
    - split; [intros (x & [=] & ?) | by intros ?%elem_of_nil]. }
  destruct (decide (vid ∈ l')) as [Hin|Hin].
  - rewrite map_filter_insert_True by done.
    rewrite map_size_insert, (bool_decide_eq_true_2 _ Hin).
    destruct (filter P ul !! name) eqn:F.
    + rewrite bool_decide_eq_true_2 by (apply Hold; eauto). simpl. lia.
    + rewrite bool_decide_eq_false_2
        by (intros H%Hold; destruct H; congruence). simpl. lia.
  - rewrite map_filter_insert_False by done.
    rewrite map_filter_delete, map_size_delete, (bool_decide_eq_false_2 _ Hin).
    destruct (filter P ul !! name) eqn:F.
    + rewrite bool_decide_eq_true_2 by (apply Hold; eauto). simpl.
      assert (size (filter P ul) ≠ 0%nat).
      { intros Hz%map_size_empty_inv. rewrite Hz in F. by rewrite lookup_empty in F. }
      lia.
    + rewrite bool_decide_eq_false_2
        by (intros H%Hold; destruct H; congruence). simpl. lia.
Qed.

Lemma includes_filter_ne vid vid' (l : list jsstring) :
  includes vid' (filter (λ id, id ≠ vid) l)
  = if decide (vid' = vid) then false else includes vid' l.
Proof.
  unfold includes. case_decide as E.
  - subst. apply bool_decide_eq_false_2. rewrite list_elem_of_filter. tauto.
  - apply bool_decide_ext. rewrite list_elem_of_filter. tauto.
Qed.

Lemma includes_snoc vid vid' (l : list jsstring) :
  includes vid' (l ++ [vid])
  = if decide (vid' = vid) then true else includes vid' l.
Proof.
  unfold includes. case_decide as E.
  - subst. apply bool_decide_eq_true_2, elem_of_app. right. by apply list_elem_of_singleton.
  - apply bool_decide_ext. rewrite elem_of_app, list_elem_of_singleton. tauto.
Qed.
End likes_facts.

(** A lookup that gives a list gives the own list, or the default. *)
Lemma get_or_inl {A} (o : gmap jsstring A) k d a :
  get_or o k d = inl a → a = default d (o !! k).
Proof.
  unfold get_or. destruct (o !! k); simpl; [congruence|].
  destruct (inherited k); congruence.
Qed.

(** A lookup that gives an inherited property found no own one. *)
Lemma get_or_inr {A} (o : gmap jsstring A) k d p :
  get_or o k d = inr p → o !! k = None ∧ inherited k = Some p.
Proof.
  unfold get_or. destruct (o !! k); simpl; [congruence|].
  destruct (inherited k); [|congruence]. by intros [= ->].
Qed.

Lemma get_or_own {A} (o : gmap jsstring A) k d a :
  o !! k = Some a → get_or o k d = inl a.
Proof. unfold get_or. by intros ->. Qed.

Lemma get_or_insert {A} (o : gmap jsstring A) k d a :
  get_or (<[k := a]> o) k d = inl a.
Proof. apply get_or_own, lookup_insert_eq. Qed.

Lemma toggleLike_logged_out vid st :
  currentUser st = None →
  toggleLike vid st
  = setAuthSuccess None
      (setAuthError (Some (js "You need to be logged in to like videos.")) st).
Proof. destruct st. unfold toggleLike, toggleLike_call. simpl. by intros ->. Qed.

(** A toggle that throws leaves every cell as it was. *)
Lemma toggleLike_throws vid st cu p :
  currentUser st = Some cu →
  get_or (userLikes st) (username cu) [] = inr p →
  toggleLike vid st = st.
Proof. intros Hu Hp. unfold toggleLike, toggleLike_call. by rewrite Hu, Hp. Qed.

(** The cells of the state after a toggle by a signed-in user whose list
    can be read. *)
Lemma toggleLike_logged_in vid st cu l :
  currentUser st = Some cu →
  get_or (userLikes st) (username cu) [] = inl l →
  toggleLike vid st
  = mkApp (Some cu)
      (<[vid := if includes vid (default [] (userLikes st !! username cu))
                then Z.max 0 (likesForVideo st vid - 1)
                else likesForVideo st vid + 1]> (likes st))
      (<[username cu := toggled vid (default [] (userLikes st !! username cu))]>
         (userLikes st))
      (comments st) (avatars st) (authError st) (authSuccess st).
Proof.
  intros Hu Hl. unfold toggleLike, toggleLike_call. rewrite Hu, Hl.
  apply get_or_inl in Hl as ->. destruct st. simpl in *. by subst.
Qed.

Lemma toggled_includes vid vid' (old : list jsstring) :
  includes vid' (toggled vid old)
  = if decide (vid' = vid) then negb (includes vid old) else includes vid' old.
Proof.
  unfold toggled. destruct (includes vid old) eqn:E.
  - rewrite includes_filter_ne. by case_decide.
  - rewrite includes_snoc. by case_decide.
Qed.

Lemma likes_consistent_initial : likes_consistent initial_state.
Proof.
  intros vid. unfold likesForVideo. simpl.
  rewrite lookup_empty, likers_empty. simpl. lia.
Qed.

Lemma likes_consistent_toggleLike vid st :
  likes_consistent st → likes_consistent (toggleLike vid st).
Proof.
  intros Hinv. destruct (currentUser st) as [cu|] eqn:Hcu.
  2:{ rewrite toggleLike_logged_out by done. exact Hinv. }
  destruct (get_or (userLikes st) (username cu) []) as [l|p] eqn:Hl.
  2:{ by rewrite (toggleLike_throws _ _ _ _ Hcu Hl). }
  rewrite (toggleLike_logged_in _ _ _ _ Hcu Hl).
  intros vid'.
  match goal with
  | |- likesForVideo ?s _ = _ ∧ _ =>
      cut (likesForVideo s vid' = Z.of_nat (likers (userLikes s) vid'))
  end.
  { intros ->. split; [done | lia]. }
  unfold likesForVideo at 1. simpl.
  rewrite likers_insert, toggled_includes.
  pose proof (likers_insert (userLikes st) (username cu)
                (toggled vid (default [] (userLikes st !! username cu))) vid) as Hn.
  rewrite toggled_includes, decide_True in Hn by done.
  destruct (Hinv vid) as [Hv Hv0]. destruct (Hinv vid') as [Hv' _].
  destruct (decide (vid' = vid)) as [->|Hne].
  - rewrite lookup_insert_eq. simpl.
    destruct (includes vid _); simpl in *; lia.
  - rewrite lookup_insert_ne by done. fold (likesForVideo st vid').
    destruct (includes vid' _); simpl; lia.
Qed.

Lemma likes_consistent_step ev st :
  likes_consistent st → likes_consistent (app_step ev st).
Proof.
  intros Hinv. destruct ev; simpl; try exact Hinv.
  - by destruct session.
  - unfold handleAuthSubmit. destruct (_ || _); [exact Hinv|].
    destruct resp as [|[u|]], mode; exact Hinv.
  - by apply likes_consistent_toggleLike.
  - unfold handleAddComment. destruct (currentUser st); [|exact Hinv].
    destruct (negb _); exact Hinv.
Qed.


Lemma toggleLike_keeps_user vid st : currentUser (toggleLike vid st) = currentUser st.
Proof.
  destruct (currentUser st) as [cu|] eqn:Hcu.
  - destruct (get_or (userLikes st) (username cu) []) as [l|p] eqn:Hl.
    + by rewrite (toggleLike_logged_in _ _ _ _ Hcu Hl).
    + by rewrite (toggleLike_throws _ _ _ _ Hcu Hl).
  - rewrite toggleLike_logged_out by done. by destruct st.
Qed.





(** C2. The count of every video is the number of usernames whose list
    contains it, and is not negative: this holds of the empty initial
    state and is kept by every toggle of a signed-in user. *)
Theorem likes_count_invariant :
  likes_consistent initial_state
  ∧ ∀ st u vid,
      currentUser st = Some u →
      likes_consistent st →
      likes_consistent (toggleLike vid st).
Proof.
  split; [apply likes_consistent_initial|].
  intros st u vid _. apply likes_consistent_toggleLike.
Qed.

Lemma likes_count_invariant_witness :
  likes_consistent (toggleLike (js "wowfinalfinal1") signed_in).
Proof.
  apply (proj2 likes_count_invariant signed_in alice (js "wowfinalfinal1")).
  - reflexivity.
  - intros vid. unfold likesForVideo, likers. simpl.
    rewrite lookup_empty, map_filter_empty, map_size_empty. simpl. lia.
Defined.

(** C10. A toggle of [vid] by the signed-in user [u] leaves alone the
    counts of the other videos, the lists of the other usernames, the
    comments and the avatars. *)
Theorem toggleLike_frame st u vid :
  currentUser st = Some u →
  (∀ vid', vid' ≠ vid → likes (toggleLike vid st) !! vid' = likes st !! vid')
  ∧ (∀ name, name ≠ username u →
       userLikes (toggleLike vid st) !! name = userLikes st !! name)
  ∧ comments (toggleLike vid st) = comments st
  ∧ avatars (toggleLike vid st) = avatars st.
Proof.
  intros Hu.
  destruct (get_or (userLikes st) (username u) []) as [l|p] eqn:Hl.
  2:{ by rewrite (toggleLike_throws _ _ _ _ Hu Hl). }
  rewrite (toggleLike_logged_in _ _ _ _ Hu Hl). simpl.
  repeat split.
  - intros vid' Hne. by rewrite lookup_insert_ne.
  - intros name Hne. by rewrite lookup_insert_ne.
Qed.

Lemma toggleLike_frame_witness :
  (∀ vid', vid' ≠ js "wowfinalfinal2" →
     likes (toggleLike (js "wowfinalfinal2") liked_once) !! vid'
     = likes liked_once !! vid')
  ∧ (∀ name, name ≠ username alice →
       userLikes (toggleLike (js "wowfinalfinal2") liked_once) !! name
       = userLikes liked_once !! name)
  ∧ comments (toggleLike (js "wowfinalfinal2") liked_once) = comments liked_once
  ∧ avatars (toggleLike (js "wowfinalfinal2") liked_once) = avatars liked_once.
Proof.
  apply (toggleLike_frame liked_once alice (js "wowfinalfinal2")). reflexivity.
Defined.

(** ** Sorting *)

Section ArraySort_facts.
Context {A : Type} (comparefn : A → A → Z).
Hypothesis before_total :
  ∀ a b, placed_before comparefn a b ∨ placed_before comparefn b a.
Hypothesis before_trans : Transitive (placed_before comparefn).

#[local] Abbreviation before := (placed_before comparefn).

Lemma ltb_before a b : (comparefn a b <? 0) = true ↔ before a b.
Proof. unfold placed_before. apply Z.ltb_lt. Qed.

(** The run that [extendRun] cuts off is a chain from [prev] on. *)
Lemma extendRun_spec isDescending prev rest run tl :
  extendRun comparefn isDescending prev rest = (run, tl) →
  rest = run ++ tl
  ∧ Sorted (if isDescending then flip before else before) (prev :: run).
Proof.
  revert prev run tl. induction rest as [|cur rest IH]; intros prev run tl; simpl.
  { intros [= <- <-]. split; [done|]. repeat constructor. }
  destruct (if isDescending then _ else _) eqn:Hstop.
  { intros [= <- <-]. split; [done|]. repeat constructor. }
  destruct (extendRun comparefn isDescending cur rest) as [run' tl'] eqn:Hrec.
  intros [= <- <-]. destruct (IH _ _ _ Hrec) as [-> Hs]. split; [done|].
  constructor; [done|]. constructor.
  destruct isDescending; simpl.
  - apply Z.leb_gt in Hstop. exact Hstop.
  - apply Z.ltb_ge in Hstop.
    destruct (before_total prev cur) as [?|Hc]; [done|].
    unfold placed_before in Hc. lia.
Qed.

Lemma countAndMakeRun_spec l run tl :
  countAndMakeRun comparefn l = (run, tl) →
  l ≡ₚ run ++ tl ∧ StronglySorted before run.
Proof.
  unfold countAndMakeRun. destruct l as [|a0 [|a1 rest]].
  - intros [= <- <-]. split; [done | constructor].
  - intros [= <- <-]. split; [done | repeat constructor].
  - destruct (extendRun _ _ _ _) as [run' tl'] eqn:Hrun.
    intros [= <- <-]. apply extendRun_spec in Hrun as [-> Hs].
    destruct (comparefn a1 a0 <? 0) eqn:Hd.
    + split.
      * rewrite reverse_Permutation. done.
      * apply Sorted_StronglySorted; [done|].
        assert (Sorted (flip before) (a0 :: a1 :: run')) as Hs'.
        { constructor; [done|]. constructor. by apply ltb_before. }
        apply Sorted_reverse in Hs'.
        exact Hs'.
    + split; [done|]. apply Sorted_StronglySorted; [done|].
      constructor; [done|]. constructor.
      apply Z.ltb_ge in Hd.
      destruct (before_total a0 a1) as [?|Hc]; [done|].
      unfold placed_before in Hc. lia.
Qed.

Lemma StronglySorted_lookup (work : list A) i j x y :
  StronglySorted before work → (i < j)%nat →
  work !! i = Some x → work !! j = Some y → before x y.
Proof.
  intros Hs. revert i j. induction Hs as [|a l _ IH Hall]; intros i j Hij Hi Hj.
  - by rewrite lookup_nil in Hi.
  - destruct j as [|j]; [lia|]. destruct i as [|i]; simpl in *.
    + injection Hi as <-. rewrite Forall_forall in Hall.
      eapply Hall, list_elem_of_lookup_2, Hj.
    + eapply (IH i j); [lia|done..].
Qed.

Lemma before_refl a : before a a.
Proof. by destruct (before_total a a). Qed.

Lemma insertionPoint_S fuel work pivot left right :
  insertionPoint comparefn (S fuel) work pivot left right
  = if decide (left < right)%nat then
      match work !! (left + (right - left) / 2)%nat with
      | Some x =>
          if comparefn pivot x <? 0
          then insertionPoint comparefn fuel work pivot left
                 (left + (right - left) / 2)%nat
          else insertionPoint comparefn fuel work pivot
                 (left + (right - left) / 2 + 1)%nat right
      | None => left
      end
    else left.
Proof. reflexivity. Qed.

(** The binary search stops at a position that splits the sorted prefix
    around the pivot. *)
Lemma insertionPoint_spec work pivot :
  StronglySorted before work →
  ∀ fuel left right,
    (left ≤ right ≤ length work)%nat →
    (right - left < fuel)%nat →
    (∀ j x, (j < left)%nat → work !! j = Some x → before x pivot) →
    (∀ j x, (right ≤ j)%nat → work !! j = Some x → before pivot x) →
    (∀ j x, (j < insertionPoint comparefn fuel work pivot left right)%nat →
            work !! j = Some x → before x pivot)
    ∧ (∀ j x, (insertionPoint comparefn fuel work pivot left right ≤ j)%nat →
              work !! j = Some x → before pivot x).
Proof.
  intros Hs fuel. induction fuel as [|fuel IH]; intros left right Hlr Hfuel Hl Hr.
  { lia. }
  rewrite insertionPoint_S.
  case_decide as Hlt; [|split; [done|]; intros j x Hj; apply Hr; lia].
  pose proof (Nat.div_mod_eq (right - left) 2) as Hdiv.
  pose proof (Nat.mod_upper_bound (right - left) 2 ltac:(done)) as Hmod.
  set (mid := (left + (right - left) / 2)%nat) in *.
  assert (left ≤ mid < right)%nat as Hmid by (unfold mid; lia).
  destruct (lookup_lt_is_Some_2 work mid ltac:(lia)) as [x Hx]. rewrite Hx.
  destruct (comparefn pivot x <? 0) eqn:Hc.
  - apply ltb_before in Hc. apply IH; [lia|lia|done|].
    intros j y Hj Hy. destruct (decide (j = mid)) as [->|Hne].
    + by simplify_eq.
    + transitivity x; [done|].
      eapply (StronglySorted_lookup work mid j); [done|lia|done..].
  - assert (before x pivot) as Hxp.
    { destruct (before_total x pivot) as [?|Hp]; [done|].
      apply ltb_before in Hp. congruence. }
    apply IH; [lia|lia| |done].
    intros j y Hj Hy. destruct (decide (j = mid)) as [->|Hne].
    + by simplify_eq.
    + transitivity x; [|done].
      eapply (StronglySorted_lookup work j mid); [done|lia|done..].
Qed.

Lemma binaryInsert_perm work pivot :
  binaryInsert comparefn work pivot ≡ₚ work ++ [pivot].
Proof.
  unfold binaryInsert.
  rewrite <-Permutation_middle, <-Permutation_cons_append.
  by rewrite take_drop.
Qed.

Lemma binaryInsert_sorted work pivot :
  StronglySorted before work →
  StronglySorted before (binaryInsert comparefn work pivot).
Proof.
  intros Hs. unfold binaryInsert.
  destruct (insertionPoint_spec work pivot Hs (S (length work)) 0 (length work))
    as [Hl Hr]; [lia|lia|intros; lia| |].
  { intros j x Hj Hx. apply lookup_lt_Some in Hx. lia. }
  set (i := insertionPoint _ _ _ _ _ _) in *.
  pose proof Hs as Hs'. rewrite <-(take_drop i work) in Hs'.
  apply StronglySorted_app in Hs' as (Hcross & Htake & Hdrop).
  apply StronglySorted_app. split; [|split; [done|]].
  - intros x1 x2 Hx1 Hx2. apply elem_of_take in Hx1 as (j & Hj & Hji).
    apply elem_of_cons in Hx2 as [->|Hx2].
    + by eapply Hl.
    + apply Hcross; [|done]. apply elem_of_take. eauto.
  - apply StronglySorted_cons. split; [|done].
    apply Forall_forall. intros y Hy.
    apply list_elem_of_lookup in Hy as [j Hj]. rewrite lookup_drop in Hj.
    eapply Hr; [|exact Hj]. lia.
Qed.

Lemma binaryInsertionSort_spec rest run :
  StronglySorted before run →
  binaryInsertionSort comparefn run rest ≡ₚ run ++ rest
  ∧ StronglySorted before (binaryInsertionSort comparefn run rest).
Proof.
  unfold binaryInsertionSort. revert run.
  induction rest as [|pivot rest IH]; intros run Hs; simpl.
  - by rewrite app_nil_r.
  - destruct (IH _ (binaryInsert_sorted run pivot Hs)) as [Hp Hs'].
    split; [|done]. rewrite Hp, binaryInsert_perm, <-app_assoc. done.
Qed.

(** For a comparator that is a total preorder, the sort returns a sorted
    rearrangement of its argument. *)
Lemma Array_sort_spec l :
  Array_sort comparefn l ≡ₚ l ∧ StronglySorted before (Array_sort comparefn l).
Proof.
  unfold Array_sort.
  destruct (countAndMakeRun comparefn l) as [run rest] eqn:Hrun.
  apply countAndMakeRun_spec in Hrun as [Hp Hs].
  destruct (binaryInsertionSort_spec rest run Hs) as [Hp' Hs'].
  split; [|done]. by rewrite Hp', Hp.
Qed.
End ArraySort_facts.

Lemma str_lt_asym a b : str_lt a b = true → str_lt b a = false.
Proof.
  revert b. induction a as [|x a IH]; intros [|y b]; simpl; try done.
  destruct (x <? y)%N eqn:Hxy, (y <? x)%N eqn:Hyx; try done.
  - apply N.ltb_lt in Hxy, Hyx. lia.
  - apply IH.
Qed.

Lemma str_le_trans a b c :
  str_lt b a = false → str_lt c b = false → str_lt c a = false.
Proof.
  revert b c. induction a as [|x a IH]; intros [|y b] [|z c]; simpl; try done.
  destruct (y <? x)%N eqn:Hyx; [done|].
  destruct (x <? y)%N eqn:Hxy.
  - intros _. destruct (z <? y)%N eqn:Hzy; [done|].
    destruct (y <? z)%N eqn:Hyz.
    + intros _. apply N.ltb_lt in Hxy, Hyz.
      rewrite (proj2 (N.ltb_ge z x)) by lia.
      by rewrite (proj2 (N.ltb_lt x z)) by lia.
    + intros Hcb. apply N.ltb_ge in Hzy, Hyz. assert (z = y) as -> by lia.
      by rewrite Hyx, Hxy.
  - apply N.ltb_ge in Hyx, Hxy. assert (y = x) as -> by lia.
    intros Hba. destruct (z <? x)%N; [done|]. destruct (x <? z)%N; [done|].
    by apply IH.
Qed.

(** ** Comments *)

Lemma trimStart_nil_iff s :
  trimStart s = [] ↔ Forall (λ c, is_trimmed_unit c = true) s.
Proof.
  induction s as [|c s IH]; simpl.
  - split; [constructor | done].
  - destruct (is_trimmed_unit c) eqn:E.
    + rewrite IH. split; [by constructor | by inversion 1].
    + split; [done | inversion 1; congruence].
Qed.

Lemma trimStart_head s c s' :
  trimStart s = c :: s' → is_trimmed_unit c = false.
Proof.
  induction s as [|d s IH]; simpl; [done|].
  destruct (is_trimmed_unit d) eqn:E; [done | congruence].
Qed.

(** The trimmed text is empty exactly for a text of white space only. *)
Lemma trim_nil_iff s :
  trim s = [] ↔ Forall (λ c, is_trimmed_unit c = true) s.
Proof.
  unfold trim, trimEnd. split.
  - intros H. apply (f_equal reverse) in H. rewrite reverse_involutive in H.
    change (reverse []) with (@nil code_unit) in H.
    apply trimStart_nil_iff in H. rewrite Forall_reverse in H.
    destruct (trimStart s) as [|c t] eqn:E; [by apply trimStart_nil_iff|].
    apply trimStart_head in E. apply Forall_cons in H as [? _]. congruence.
  - intros H. apply trimStart_nil_iff in H. by rewrite H.
Qed.

Lemma truthy_false_iff s : truthy s = false ↔ s = [].
Proof. by destruct s. Qed.

(** C3. Submitting a comment: without a user the list is kept and the
    authentication error is shown; with a user and a text of white space
    only (or no text) nothing at all changes; with a user and a text that
    is not empty once trimmed, exactly one comment by that username is
    appended. *)
Theorem handleAddComment_cases clk vid txt st :
  (currentUser st = None →
     comments (handleAddComment clk vid txt st) = comments st
     ∧ authError (handleAddComment clk vid txt st)
       = Some (js "You need to be logged in to comment."))
  ∧ (∀ u, currentUser st = Some u →
       Forall (λ c, is_trimmed_unit c = true) txt →
       handleAddComment clk vid txt st = st)
  ∧ (∀ u, currentUser st = Some u →
       trim txt ≠ [] →
       ∃ c, comments (handleAddComment clk vid txt st) = comments st ++ [c]
            ∧ author c = username u
            ∧ videoId c = vid
            ∧ text c = trim txt
            ∧ createdAt c = Date_toISOString clk
            ∧ authError (handleAddComment clk vid txt st) = authError st).
Proof.
  unfold handleAddComment. split; [|split].
  - by intros ->.
  - intros u -> Hws%trim_nil_iff. by rewrite Hws.
  - intros u -> Hne. destruct (trim txt) as [|c t] eqn:E; [done|]. simpl.
    eexists. repeat split.
Qed.

Lemma handleAddComment_cases_witness :
  (comments (handleAddComment noon (js "wowfinalfinal1") (js "nice") initial_state)
   = comments initial_state
   ∧ authError (handleAddComment noon (js "wowfinalfinal1") (js "nice") initial_state)
     = Some (js "You need to be logged in to comment."))
  ∧ handleAddComment noon (js "wowfinalfinal1") (js "   ") signed_in = signed_in
  ∧ ∃ c, comments (handleAddComment noon (js "wowfinalfinal1") (js " nice ") signed_in)
         = comments signed_in ++ [c]
         ∧ author c = username alice
         ∧ videoId c = js "wowfinalfinal1"
         ∧ text c = trim (js " nice ")
         ∧ createdAt c = Date_toISOString noon
         ∧ authError (handleAddComment noon (js "wowfinalfinal1") (js " nice ") signed_in)
           = authError signed_in.
Proof.
  split; [|split].
  - apply (proj1 (handleAddComment_cases noon (js "wowfinalfinal1") (js "nice")
                    initial_state)).
    reflexivity.
  - apply (proj1 (proj2 (handleAddComment_cases noon (js "wowfinalfinal1") (js "   ")
                           signed_in)) alice).
    + reflexivity.
    + repeat constructor.
  - apply (proj2 (proj2 (handleAddComment_cases noon (js "wowfinalfinal1") (js " nice ")
                           signed_in)) alice).
    + reflexivity.
    + vm_compute. discriminate.
Defined.

(** Whatever the times, the comments presented for a video are the stored
    comments of that video, rearranged so that creation times never
    decrease. *)
Lemma commentsForVideo_sorted st vid :
  commentsForVideo st vid ≡ₚ filter (λ c, videoId c = vid) (comments st)
  ∧ StronglySorted createdAt_le (commentsForVideo st vid).
Proof.
  unfold commentsForVideo.
  set (cmp := λ a b : Comment,
         if str_gt (createdAt a) (createdAt b) then 1 else -1).
  assert (Hiff : ∀ a b, placed_before cmp a b ↔ createdAt_le a b).
  { intros a b. unfold placed_before, createdAt_le, cmp.
    destruct (str_gt _ _); split; (done || lia). }
  destruct (Array_sort_spec cmp) with
    (l := filter (λ c, videoId c = vid) (comments st)) as [Hp Hs].
  - intros a b. rewrite !Hiff. unfold createdAt_le, str_gt.
    destruct (str_lt (createdAt b) (createdAt a)) eqn:E; [|by left].
    right. by apply str_lt_asym.
  - intros a b c. rewrite !Hiff. unfold createdAt_le, str_gt.
    apply str_le_trans.
  - split; [done|]. clear Hp.
    induction Hs as [|a l _ IH Hall]; constructor; [done|].
    eapply Forall_impl; [exact Hall|]. intros b. apply Hiff.
Qed.

(** C7, at an input where the code and the claim part.  Two comments on
    one video carry the same creation time; the comparator answers -1 for
    the pair in either order, the run of two is taken for a descending one
    and reversed, and the later comment is presented first. *)
Theorem commentsForVideo_tie_reversed :
  (text <$> comments same_instant_comments) = [js "first"; js "second"]
  ∧ (createdAt <$> comments same_instant_comments)
    = [Date_toISOString noon; Date_toISOString noon]
  ∧ (text <$> commentsForVideo same_instant_comments (js "wowfinalfinal1"))
    = [js "second"; js "first"].
Proof. vm_compute. done. Qed.

(** ** Usernames *)

Lemma head_split e : head (split at_sign e) = Some (local_part e).
Proof.
  induction e as [|c e IH]; simpl; [done|].
  case_decide; [done|].
  destruct (split at_sign e) as [|seg segs]; simpl in *; [done|].
  by injection IH as ->.
Qed.

Lemma deriveUsername_some e :
  e ≠ [] →
  deriveUsername (Some e) = if decide (local_part e = []) then e else local_part e.
Proof.
  intros He. unfold deriveUsername. destruct e as [|c e]; [done|]. simpl truthy. simpl negb.
  cbv iota. rewrite head_split. unfold or_else.
  destruct (local_part (c :: e)); by simpl.
Qed.

(** C8, as the code has it.  The username of the signed-in user is the
    metadata username when that is present and not empty; otherwise, for
    an email that is present and not empty, the part before its first [@],
    or the whole email when that part is empty; otherwise the placeholder. *)
Theorem sessionUsername_cases u :
  (∀ st, username <$> currentUser (onAuthStateChange (Some u) st)
         = Some (sessionUsername u))
  ∧ (∀ name : jsstring, su_user_metadata u ≫= md_username = Some name →
             name ≠ [] →
             sessionUsername u = name)
  ∧ (∀ e : jsstring, default [] (su_user_metadata u ≫= md_username) = [] →
          su_email u = Some e →
          e ≠ [] →
          sessionUsername u = if decide (local_part e = []) then e else local_part e)
  ∧ (default [] (su_user_metadata u ≫= md_username) = [] →
     default [] (su_email u) = [] →
     sessionUsername u = js "mystery-creature").
Proof.
  unfold sessionUsername. split; [done|]. split; [|split].
  - intros name -> Hne. by destruct name.
  - intros e Hmd -> He. rewrite <-deriveUsername_some by done.
    by destruct (_ ≫= _) as [[|]|].
  - intros Hmd Hem.
    assert (deriveUsername (su_email u) = js "mystery-creature") as ->.
    { destruct (su_email u) as [[|]|]; done. }
    by destruct (_ ≫= _) as [[|]|].
Qed.

Lemma sessionUsername_cases_witness :
  sessionUsername carol_session = js "caz"
  ∧ sessionUsername no_local_part = js "@example.com"
  ∧ sessionUsername (mkSessionUser (js "u-5") None None) = js "mystery-creature".
Proof.
  split; [|split].
  - apply (proj1 (proj2 (sessionUsername_cases carol_session))).
    + reflexivity.
    + discriminate.
  - apply (proj1 (proj2 (proj2 (sessionUsername_cases no_local_part)))
             (js "@example.com")).
    + reflexivity.
    + reflexivity.
    + discriminate.
  - apply (proj2 (proj2 (proj2 (sessionUsername_cases
                                  (mkSessionUser (js "u-5") None None))))).
    + reflexivity.
    + reflexivity.
Defined.

(** C8 as stated fails: an email whose local part is empty gives the whole
    email, and a metadata username that is the empty string is passed
    over. *)
Lemma sessionUsername_counterexample :
  (spec_username no_local_part = []
   ∧ sessionUsername no_local_part = js "@example.com")
  ∧ (spec_username empty_username = []
     ∧ sessionUsername empty_username = js "bob")
  ∧ sessionUsername no_local_part ≠ spec_username no_local_part.
Proof. vm_compute. repeat split; discriminate. Qed.

(** ** Navigation *)

Section navigation_facts.
Variable videos : list Video.

Lemma filteredLength_nonneg tab : 0 ≤ filteredLength videos tab.
Proof. unfold filteredLength. lia. Qed.

Lemma filteredLength_zero_iff tab :
  filteredLength videos tab = 0 ↔ filteredList videos tab = [].
Proof.
  unfold filteredLength. destruct (filteredList videos tab); simpl; split;
    (done || lia).
Qed.

(** The divisor of [cycleVideo] is the length, or 1 for an empty list. *)
Lemma cycleVideo_next_eq tab d prev :
  cycleVideo_next videos tab d prev
  = Some (Z.rem (prev + direction_value d + Z.max 1 (filteredLength videos tab))
                (Z.max 1 (filteredLength videos tab))).
Proof.
  unfold cycleVideo_next, js_rem.
  pose proof (filteredLength_nonneg tab).
  destruct (decide (filteredLength videos tab = 0)) as [->|Hne].
  - by rewrite decide_False.
  - rewrite decide_False by done. by rewrite Z.max_r by lia.
Qed.

Lemma cycleVideo_next_mod tab d prev :
  0 ≤ prev →
  cycleVideo_next videos tab d prev
  = Some ((prev + direction_value d) mod Z.max 1 (filteredLength videos tab)).
Proof.
  intros Hprev. rewrite cycleVideo_next_eq. f_equal.
  pose proof (filteredLength_nonneg tab).
  assert (-1 ≤ direction_value d) by (destruct d; simpl; lia).
  rewrite Z.rem_mod_nonneg by lia.
  rewrite <-(Z_mod_plus_full (prev + direction_value d) 1). f_equal. lia.
Qed.

Lemma indexEffect_in_range st :
  0 ≤ currentIndex st < filteredLength videos (activeTab st) →
  indexEffect videos st = st.
Proof. intros H. unfold indexEffect. rewrite decide_False; [done | lia]. Qed.
End navigation_facts.

(** C5, as the code has it.  Advancing and retreating move an index
    circularly modulo the length of the filtered list (an empty list counts
    as one of length 1); on a list of two, two "next" operations from index
    0 come back to 0 and a third leaves the index at 1. *)
Theorem cycleVideo_wraps videos tab :
  (∀ d prev,
     0 ≤ prev →
     cycleVideo_next videos tab d prev
     = Some ((prev + direction_value d) mod Z.max 1 (filteredLength videos tab)))
  ∧ (filteredLength videos tab = 2 →
       next_times videos 2 (mkNav tab 0) = Some (mkNav tab 0)
       ∧ next_times videos 3 (mkNav tab 0) = Some (mkNav tab 1)).
Proof.
  split; [intros d prev; apply cycleVideo_next_mod|].
  intros Hlen.
  assert (H01 : nav_step videos CardNext (mkNav tab 0) = Some (mkNav tab 1)).
  { unfold nav_step, handle, cycleVideo. simpl.
    rewrite cycleVideo_next_eq, Hlen. simpl.
    unfold indexEffect. simpl. by rewrite Hlen. }
  assert (H10 : nav_step videos CardNext (mkNav tab 1) = Some (mkNav tab 0)).
  { unfold nav_step, handle, cycleVideo. simpl.
    rewrite cycleVideo_next_eq, Hlen. simpl.
    unfold indexEffect. simpl. by rewrite Hlen. }
  split; simpl.
  - rewrite H01. simpl. rewrite H10. done.
  - rewrite H01. simpl. rewrite H10. simpl. rewrite H01. done.
Qed.

Lemma cycleVideo_wraps_witness :
  cycleVideo_next ALL_VIDEOS your backward 0
  = Some ((0 + direction_value backward) mod Z.max 1 (filteredLength ALL_VIDEOS your))
  ∧ next_times ALL_VIDEOS 2 (mkNav your 0) = Some (mkNav your 0)
  ∧ next_times ALL_VIDEOS 3 (mkNav your 0) = Some (mkNav your 1).
Proof.
  split.
  - apply (proj1 (cycleVideo_wraps ALL_VIDEOS your) backward 0). lia.
  - apply (proj2 (cycleVideo_wraps ALL_VIDEOS your)). reflexivity.
Defined.

(** C5 as stated fails: on the two trending videos, three "next"
    operations from index 0 end at index 1. *)
Lemma three_nexts_counterexample :
  filteredLength ALL_VIDEOS trending = 2
  ∧ currentIndex <$> next_times ALL_VIDEOS 3 (mkNav trending 0) = Some 1
  ∧ currentIndex <$> next_times ALL_VIDEOS 3 (mkNav trending 0) ≠ Some 0.
Proof. vm_compute. repeat split; discriminate. Qed.

Section navigation_invariant.
Variable videos : list Video.

Lemma indexEffect_ok st : 0 ≤ currentIndex st → index_ok videos (indexEffect videos st).
Proof.
  intros H. unfold indexEffect, index_ok. case_decide; simpl; lia.
Qed.

Lemma cycleVideo_nonneg d st st' :
  0 ≤ currentIndex st → cycleVideo videos d st = Some st' →
  0 ≤ currentIndex st' ∧ activeTab st' = activeTab st.
Proof.
  intros H. unfold cycleVideo. rewrite cycleVideo_next_mod by done. simpl.
  intros [= <-]. simpl. split; [|done].
  apply Z.mod_pos_bound. lia.
Qed.

Lemma handleWheel_index deltaY st :
  currentIndex (handleWheel deltaY st) = currentIndex st.
Proof. unfold handleWheel. by repeat case_decide. Qed.

Lemma handle_nonneg ev st st' :
  0 ≤ currentIndex st → handle videos ev st = Some st' → 0 ≤ currentIndex st'.
Proof.
  intros H. destruct ev; simpl.
  - by intros [= <-].
  - intros [= <-]. by rewrite handleWheel_index.
  - unfold handleTouchEnd. destruct touchStart as [[x0 y0]|]; [|by intros [= <-]].
    repeat case_decide; try (by intros [= <-]);
      intros Hc; by apply cycleVideo_nonneg in Hc as [? _].
  - unfold handleMediaClick.
    case_decide; intros Hc; by apply cycleVideo_nonneg in Hc as [? _].
  - intros Hc; by apply cycleVideo_nonneg in Hc as [? _].
  - intros Hc; by apply cycleVideo_nonneg in Hc as [? _].
Qed.

Lemma nav_reachable_ok st : nav_reachable videos st → index_ok videos st.
Proof.
  induction 1 as [|ev st st' _ [IH _] Hstep].
  - by apply indexEffect_ok.
  - unfold nav_step in Hstep.
    destruct (handle videos ev st) as [st1|] eqn:Hh; [|done].
    injection Hstep as <-. apply indexEffect_ok. by eapply handle_nonneg.
Qed.
End navigation_invariant.

(** With the two tabs of [ALL_VIDEOS] equally long, the index is in range
    even in the render between a handler and the index effect. *)
Lemma ALL_VIDEOS_handle_in_range ev st st' :
  0 ≤ currentIndex st < 2 →
  handle ALL_VIDEOS ev st = Some st' →
  0 ≤ currentIndex st' < filteredLength ALL_VIDEOS (activeTab st').
Proof.
  assert (Hlen : ∀ tab, filteredLength ALL_VIDEOS tab = 2) by (by intros []).
  intros Hst Hh. rewrite Hlen.
  assert (Hc : ∀ d s s', 0 ≤ currentIndex s < 2 →
            cycleVideo ALL_VIDEOS d s = Some s' → 0 ≤ currentIndex s' < 2).
  { intros d s s' Hs. unfold cycleVideo.
    rewrite cycleVideo_next_mod, Hlen by lia. simpl. intros [= <-]. simpl.
    apply Z.mod_pos_bound. lia. }
  destruct ev; simpl in Hh.
  - by injection Hh as <-.
  - injection Hh as <-. by rewrite handleWheel_index.
  - unfold handleTouchEnd in Hh.
    destruct touchStart as [[x0 y0]|]; [|by injection Hh as <-].
    repeat case_decide; try (by injection Hh as <-); by eapply Hc.
  - unfold handleMediaClick in Hh. case_decide; by eapply Hc.
  - by eapply Hc.
  - by eapply Hc.
Qed.

(** C6. After every completed update the index lies within the filtered
    list whenever that list is not empty; and an update that switches the
    tab while the index is at or beyond the length of the new list ends
    with the index at 0. *)
Theorem currentIndex_in_range videos :
  (∀ st, nav_reachable videos st →
         filteredList videos (activeTab st) ≠ [] →
         0 ≤ currentIndex st < filteredLength videos (activeTab st))
  ∧ (∀ ev st st',
       handle videos ev st = Some st' →
       activeTab st' ≠ activeTab st →
       filteredLength videos (activeTab st') ≤ currentIndex st →
       nav_step videos ev st = Some (mkNav (activeTab st') 0)).
Proof.
  split.
  - intros st Hreach Hne. destruct (nav_reachable_ok _ _ Hreach) as [H0 [Hlt| ->]].
    + lia.
    + rewrite <-filteredLength_zero_iff in Hne.
      pose proof (filteredLength_nonneg videos (activeTab st)). lia.
  - intros ev st st' Hh Htab Hlen. unfold nav_step. rewrite Hh. simpl. f_equal.
    assert (currentIndex st' = currentIndex st) as Hidx.
    { destruct ev; simpl in Hh.
      - by injection Hh as <-.
      - injection Hh as <-. apply handleWheel_index.
      - unfold handleTouchEnd, cycleVideo in Hh.
        destruct touchStart as [[x0 y0]|]; [|by injection Hh as <-].
        repeat case_decide; try (by injection Hh as <-);
          destruct (cycleVideo_next _ _ _ _); simplify_eq/=; done.
      - unfold handleMediaClick, cycleVideo in Hh.
        case_decide; destruct (cycleVideo_next _ _ _ _); simplify_eq/=; done.
      - unfold cycleVideo in Hh.
        destruct (cycleVideo_next _ _ _ _); simplify_eq/=; done.
      - unfold cycleVideo in Hh.
        destruct (cycleVideo_next _ _ _ _); simplify_eq/=; done. }
    unfold indexEffect. rewrite decide_True by lia. done.
Qed.

Lemma currentIndex_in_range_witness :
  (0 ≤ currentIndex (mkNav your 0) < filteredLength ALL_VIDEOS (activeTab (mkNav your 0)))
  ∧ nav_step three_and_one (TabClick your) (mkNav trending 2) = Some (mkNav your 0).
Proof.
  split.
  - apply (proj1 (currentIndex_in_range ALL_VIDEOS) (mkNav your 0)).
    + apply (nav_reach_step ALL_VIDEOS (TabClick your) (mkNav trending 0));
        [apply nav_reach_init | reflexivity].
    + vm_compute. discriminate.
  - apply (proj2 (currentIndex_in_range three_and_one) (TabClick your)
             (mkNav trending 2) (mkNav your 2)).
    + reflexivity.
    + discriminate.
    + vm_compute. discriminate.
Defined.

(** C9. The index computation returns a number for a filtered list of any
    length, and so does every navigation update; for an empty list the
    divisor is 1, the index becomes 0 and no video is selected for
    display. *)
Theorem cycleVideo_total videos tab d prev :
  is_Some (cycleVideo_next videos tab d prev)
  ∧ (∀ ev st, is_Some (nav_step videos ev st))
  ∧ (filteredList videos tab = [] →
       cycleVideo_next videos tab d prev = js_rem (prev + direction_value d + 1) 1
       ∧ cycleVideo_next videos tab d prev = Some 0
       ∧ currentVideo videos (mkNav tab prev) = None
       ∧ card_rendered videos (mkNav tab prev) = false).
Proof.
  split; [rewrite cycleVideo_next_eq; eauto|]. split.
  - intros ev st. unfold nav_step.
    cut (is_Some (handle videos ev st)). { intros [x ->]. simpl. eauto. }
    assert (Hc : ∀ d' st', is_Some (cycleVideo videos d' st')).
    { intros d' st'. unfold cycleVideo. rewrite cycleVideo_next_eq. simpl. eauto. }
    destruct ev; simpl; eauto.
    + unfold handleTouchEnd. destruct touchStart as [[x0 y0]|]; [|eauto].
    repeat case_decide; eauto.
    + unfold handleMediaClick. case_decide; eauto.
  - intros Hnil.
    assert (Hcv : currentVideo videos (mkNav tab prev) = None).
    { unfold currentVideo, array_get. simpl. rewrite Hnil.
      case_decide; by rewrite ?lookup_nil. }
    split; [|split; [|split]].
    + unfold cycleVideo_next. apply filteredLength_zero_iff in Hnil.
      by rewrite Hnil.
    + rewrite cycleVideo_next_eq. apply filteredLength_zero_iff in Hnil.
      rewrite Hnil. simpl. by rewrite Z.rem_1_r.
    + done.
    + unfold card_rendered. rewrite Hcv. apply bool_decide_eq_false_2.
      by intros [? ?].
Qed.

Lemma cycleVideo_total_witness :
  cycleVideo_next only_trending your forward 0 = js_rem (0 + direction_value forward + 1) 1
  ∧ cycleVideo_next only_trending your forward 0 = Some 0
  ∧ currentVideo only_trending (mkNav your 0) = None
  ∧ card_rendered only_trending (mkNav your 0) = false.
Proof.
  apply (proj2 (proj2 (cycleVideo_total only_trending your forward 0))).
  reflexivity.
Defined.

(** ** The reference JSON reads back what it writes *)

Module JSON_facts.
Import JSON.

(** *** Numbers *)

Lemma read_digits_units d rest :
  ends_number rest → read_digits (uint_units d ++ rest) = (d, rest).
Proof.
  intros Hrest. induction d; simpl; try (by rewrite IHd).
  destruct rest as [|c rest]; simpl in *; [done | by rewrite Hrest].
Qed.

Lemma to_uint_normal n : Decimal.unorm (N.to_uint n) = N.to_uint n.
Proof. by rewrite <-DecimalN.Unsigned.to_of, DecimalN.Unsigned.of_to. Qed.

Lemma read_nat_toString n rest :
  ends_number rest → read_nat (N_toString n ++ rest) = Some (n, rest).
Proof.
  intros Hrest. unfold read_nat, N_toString.
  rewrite read_digits_units by done.
  rewrite decide_True by apply to_uint_normal.
  by rewrite DecimalN.Unsigned.of_to.
Qed.

(** A numeral starts with a digit. *)
Lemma N_toString_head n :
  ∃ c t, N_toString n = c :: t ∧ is_Some (digit_of c)
         ∧ c ≠ 34%N ∧ c ≠ 91%N ∧ c ≠ 123%N ∧ c ≠ 45%N ∧ is_ws c = false
         ∧ starts_value c = true.
Proof.
  unfold N_toString. pose proof (unorm_nonnil (N.to_uint n)) as Hn.
  rewrite to_uint_normal in Hn.
  destruct (N.to_uint n); [done|..]; simpl; eexists _, _;
    (split; [reflexivity|]); repeat split; eauto; done.
Qed.

(** *** Strings *)

Lemma hex_value_digit n : (n < 16)%N → hex_value (hex_digit n) = Some n.
Proof.
  intros Hn. assert (n ∈ (N.of_nat <$> seq 0 16)) as Hin.
  { apply list_elem_of_fmap. exists (N.to_nat n). split; [lia|].
    apply elem_of_seq. lia. }
  vm_compute in Hin.
  repeat (apply elem_of_cons in Hin as [->|Hin]; [by vm_compute|]).
  by apply elem_of_nil in Hin.
Qed.

Lemma hex_rebuild c :
  (c < 65536)%N →
  (((c / 4096 mod 16 * 16 + c / 256 mod 16) * 16 + c / 16 mod 16) * 16
   + c mod 16 = c)%N.
Proof.
  intros Hc. 
  pose proof (N.div_mod c 16 ltac:(done)).
  pose proof (N.div_mod (c / 16) 16 ltac:(done)).
  pose proof (N.div_mod (c / 16 / 16) 16 ltac:(done)).
  rewrite !N.Div0.div_div in *.
  change (16 * 16)%N with 256%N in *. change (256 * 16)%N with 4096%N in *.
  assert (c / 4096 < 16)%N by (apply N.Div0.div_lt_upper_bound; lia).
  rewrite (N.mod_small (c / 4096)) by done.
  pose proof (N.mod_lt c 16 ltac:(done)).
  pose proof (N.mod_lt (c / 16) 16 ltac:(done)).
  pose proof (N.mod_lt (c / 256) 16 ltac:(done)).
  lia.
Qed.

Lemma read_string_escape c tail :
  (c < 65536)%N →
  read_string (unicodeEscape c ++ tail)
  = '(str, r) ← read_string tail; Some (c :: str, r).
Proof.
  intros Hc. unfold unicodeEscape. simpl.
  rewrite !hex_value_digit by (by apply N.mod_lt). simpl.
  by rewrite hex_rebuild.
Qed.

Lemma read_string_raw c tail :
  c ≠ 34%N → c ≠ 92%N → (c <? 32)%N = false →
  read_string (c :: tail) = '(str, r) ← read_string tail; Some (c :: str, r).
Proof. intros H1 H2 H3. simpl. by rewrite !decide_False, H3 by done. Qed.

Lemma surrogate_bounds c :
  is_leading_surrogate c || is_trailing_surrogate c = true →
  (c < 65536)%N ∧ c ≠ 34%N ∧ c ≠ 92%N ∧ (c <? 32)%N = false.
Proof.
  unfold is_leading_surrogate, is_trailing_surrogate.
  rewrite orb_true_iff, !andb_true_iff, !N.leb_le, N.ltb_ge. lia.
Qed.

Lemma read_string_quote_unit c tail :
  read_string (quote_unit c ++ tail)
  = '(str, r) ← read_string tail; Some (c :: str, r).
Proof.
  unfold quote_unit. repeat case_decide; subst; try done.
  destruct (c <? 32)%N eqn:Hlow; simpl.
  - apply read_string_escape. apply N.ltb_lt in Hlow. lia.
  - destruct (_ || _) eqn:Hs.
    + apply read_string_escape. by apply surrogate_bounds.
    + by apply read_string_raw.
Qed.

Lemma read_string_quote_units s rest :
  read_string (quote_units s ++ 34%N :: rest) = Some (s, rest).
Proof.
  cut (read_string (quote_units s ++ 34%N :: rest) = Some (s, rest)
       ∧ ∀ c, read_string (quote_units (c :: s) ++ 34%N :: rest)
              = Some (c :: s, rest)).
  { by intros [? _]. }
  induction s as [|d s [IH0 IH1]].
  - split; [done|]. intros c. simpl.
    destruct (is_leading_surrogate c) eqn:Hc.
    + rewrite read_string_escape; [done|].
      apply surrogate_bounds. by rewrite Hc.
    + by rewrite <-app_assoc, read_string_quote_unit.
  - split; [apply IH1|]. intros c.
    change (quote_units (c :: d :: s)) with
      (if is_leading_surrogate c then
         if is_trailing_surrogate d then c :: d :: quote_units s
         else unicodeEscape c ++ quote_units (d :: s)
       else quote_unit c ++ quote_units (d :: s)).
    destruct (is_leading_surrogate c) eqn:Hc.
    + destruct (is_trailing_surrogate d) eqn:Hd.
      * destruct (surrogate_bounds c) as (_ & ? & ? & ?); [by rewrite Hc|].
        destruct (surrogate_bounds d) as (_ & ? & ? & ?);
          [by rewrite Hd, orb_true_r|].
        rewrite <-!app_comm_cons, !read_string_raw by done.
        by rewrite IH0.
      * rewrite <-app_assoc, read_string_escape, IH1; [done|].
        apply surrogate_bounds. by rewrite Hc.
    + by rewrite <-app_assoc, read_string_quote_unit, IH1.
Qed.

Lemma quote_app s rest :
  quote s ++ rest = 34%N :: quote_units s ++ 34%N :: rest.
Proof. unfold quote. simpl. by rewrite <-app_assoc. Qed.

Lemma read_string_quote s rest :
  ∃ t, quote s ++ rest = 34%N :: t ∧ read_string t = Some (s, rest).
Proof.
  exists (quote_units s ++ 34%N :: rest). split.
  - unfold quote. simpl. by rewrite <-app_assoc.
  - apply read_string_quote_units.
Qed.

(** *** Values *)

Lemma stringify_arr l : stringify (JArr l) = 91%N :: array_tail l.
Proof. reflexivity. Qed.

Lemma stringify_obj m : stringify (JObj m) = 123%N :: object_tail m.
Proof. reflexivity. Qed.

Lemma stringify_head v :
  ∃ c t, stringify v = c :: t ∧ starts_value c = true.
Proof.
  destruct v as [|[]|z|s|l|m].
  1-3, 5: by eexists _, _.
  - unfold stringify, Number_toString. destruct (z <? 0); [by eexists _, _|].
    destruct (N_toString_head (Z.abs_N z)) as (c & t & -> & H).
    exists c, t. split; [done|]. apply H.
  - rewrite stringify_arr. by eexists _, _.
  - rewrite stringify_obj. by eexists _, _.
Qed.

Lemma starts_value_not_ws c :
  starts_value c = true →
  is_ws c = false ∧ c ≠ 93%N ∧ c ≠ 125%N.
Proof.
  unfold starts_value. rewrite orb_true_iff, bool_decide_eq_true.
  intros [H|H].
  - repeat (apply elem_of_cons in H as [->|H]; [by vm_compute|]).
    by apply elem_of_nil in H.
  - apply andb_true_iff in H as [H1%N.leb_le H2%N.leb_le].
    assert (c ∈ (N.of_nat <$> seq 48 10)) as Hin.
    { apply list_elem_of_fmap. exists (N.to_nat c). split; [lia|].
      apply elem_of_seq. lia. }
    vm_compute in Hin.
    repeat (apply elem_of_cons in Hin as [->|Hin]; [by vm_compute|]).
    by apply elem_of_nil in Hin.
Qed.

Lemma skip_ws_cons c s : is_ws c = false → skip_ws (c :: s) = c :: s.
Proof. intros H. simpl. by rewrite H. Qed.

Lemma skip_ws_value v rest :
  skip_ws (stringify v ++ rest) = stringify v ++ rest.
Proof.
  destruct (stringify_head v) as (c & t & -> & H).
  apply starts_value_not_ws in H as [H _]. simpl. by rewrite H.
Qed.

Lemma read_value_S fuel s :
  read_value (S fuel) s
  = match skip_ws s with
    | [] => None
    | c :: s' =>
        if decide (c = 34%N) then
          '(str, r) ← read_string s'; Some (JStr str, r)
        else if decide (c = 91%N) then
          match skip_ws s' with
          | d :: r =>
              if decide (d = 93%N) then Some (JArr [], r)
              else '(l, r') ← read_elements fuel s'; Some (JArr l, r')
          | [] => None
          end
        else if decide (c = 123%N) then
          match skip_ws s' with
          | d :: r =>
              if decide (d = 125%N) then Some (JObj [], r)
              else '(l, r') ← read_members fuel s'; Some (make_object l, r')
          | [] => None
          end
        else if decide (c = 45%N) then
          '(n, r) ← read_nat s'; Some (JNum (- Z.of_N n), r)
        else if decide (is_Some (digit_of c)) then
          '(n, r) ← read_nat (c :: s'); Some (JNum (Z.of_N n), r)
        else if decide (c = 110%N) then
          r ← strip_prefix (js "null") (c :: s'); Some (JNull, r)
        else if decide (c = 116%N) then
          r ← strip_prefix (js "true") (c :: s'); Some (JBool true, r)
        else if decide (c = 102%N) then
          r ← strip_prefix (js "false") (c :: s'); Some (JBool false, r)
        else None
    end.
Proof. reflexivity. Qed.

Lemma read_elements_S fuel s :
  read_elements (S fuel) s
  = '(v, s1) ← read_value fuel s;
    match skip_ws s1 with
    | c :: s2 =>
        if decide (c = 44%N) then
          '(l, r) ← read_elements fuel s2; Some (v :: l, r)
        else if decide (c = 93%N) then Some ([v], s2)
        else None
    | [] => None
    end.
Proof. reflexivity. Qed.

Lemma read_members_S fuel s :
  read_members (S fuel) s
  = match skip_ws s with
    | q :: s0 =>
        if decide (q = 34%N) then
          '(k, s1) ← read_string s0;
          match skip_ws s1 with
          | c1 :: s2 =>
              if decide (c1 = 58%N) then
                '(v, s3) ← read_value fuel s2;
                match skip_ws s3 with
                | c3 :: s4 =>
                    if decide (c3 = 44%N) then
                      '(l, r) ← read_members fuel s4; Some ((k, v) :: l, r)
                    else if decide (c3 = 125%N) then Some ([(k, v)], s4)
                    else None
                | [] => None
                end
              else None
          | [] => None
          end
        else None
    | [] => None
    end.
Proof. reflexivity. Qed.

Lemma array_tail_cons e l :
  array_tail (e :: l)
  = stringify e ++ match l with [] => [93%N] | _ :: _ => 44%N :: array_tail l end.
Proof. reflexivity. Qed.

Lemma object_tail_cons kv m :
  object_tail (kv :: m)
  = quote (fst kv) ++ 58%N :: stringify (snd kv) ++
    match m with [] => [125%N] | _ :: _ => 44%N :: object_tail m end.
Proof. reflexivity. Qed.

Lemma read_elements_tail l :
  Forall reads_back l → l ≠ [] →
  ∀ fuel rest,
    (foldr (λ e n, S (value_size e + n)) 0%nat l ≤ fuel)%nat →
    read_elements fuel (array_tail l ++ rest) = Some (l, rest).
Proof.
  induction 1 as [|e l He _ IH]; [done|]. intros _ fuel rest Hfuel.
  simpl in Hfuel. destruct fuel as [|fuel]; [lia|].
  rewrite read_elements_S, array_tail_cons, <-app_assoc.
  rewrite He; [|lia|by destruct l].
  destruct l as [|e' l]; [done|].
  remember (array_tail (e' :: l)) as tl eqn:Htl. simpl. subst tl.
  rewrite IH; [done|done|]. simpl in *. lia.
Qed.

Lemma read_members_tail m :
  Forall (λ kv, reads_back (snd kv)) m → m ≠ [] →
  ∀ fuel rest,
    (foldr (λ kv n, S (value_size (snd kv) + n)) 0%nat m ≤ fuel)%nat →
    read_members fuel (object_tail m ++ rest) = Some (m, rest).
Proof.
  induction 1 as [|[k v] m Hv _ IH]; [done|]. intros _ fuel rest Hfuel.
  simpl in Hfuel, Hv. destruct fuel as [|fuel]; [lia|].
  rewrite read_members_S, object_tail_cons. simpl fst. simpl snd.
  rewrite <-app_assoc, quote_app.
  simpl skip_ws. cbv iota. rewrite decide_True by done.
  rewrite read_string_quote_units. simpl.
  rewrite <-app_assoc, Hv; [|lia|by destruct m].
  destruct m as [|kv' m]; [done|].
  remember (object_tail (kv' :: m)) as tl eqn:Htl. simpl. subst tl.
  rewrite IH; [done|done|]. simpl in *. lia.
Qed.

Lemma set_member_fresh k v m :
  k ∉ fst <$> m → set_member k v m = m ++ [(k, v)].
Proof.
  induction m as [|kv m IH]; simpl; [done|].
  rewrite not_elem_of_cons. intros [Hne Hm].
  rewrite decide_False by done. by rewrite IH.
Qed.

Lemma make_object_nodup m : NoDup (fst <$> m) → make_object m = JObj m.
Proof.
  unfold make_object. intros Hm. f_equal.
  cut (∀ acc, NoDup (fst <$> acc ++ m) →
              foldl (λ (m : list (jsstring * jsvalue)) kv,
                       set_member (fst kv) (snd kv) m) acc m = acc ++ m).
  { intros H. by apply (H []). }
  clear Hm. induction m as [|[k v] m IH]; intros acc Hnd; simpl.
  - by rewrite app_nil_r.
  - rewrite set_member_fresh.
    + rewrite IH; rewrite <-app_assoc; done.
    + rewrite fmap_app in Hnd. apply NoDup_app in Hnd as (_ & Hnd & _).
      intros Hin. apply (Hnd k Hin). simpl. left.
Qed.

Lemma wf_elements l :
  foldr (λ e P, wf_value e ∧ P) True l ↔ Forall wf_value l.
Proof.
  induction l as [|e l IH]; simpl; [by split|].
  rewrite IH, Forall_cons. done.
Qed.

Lemma wf_members (m : list (jsstring * jsvalue)) :
  foldr (λ kv P, wf_value (snd kv) ∧ P) True m
  ↔ Forall (λ kv, wf_value (snd kv)) m.
Proof.
  induction m as [|kv m IH]; simpl; [by split|].
  rewrite IH, Forall_cons. done.
Qed.

Lemma array_tail_head e l rest :
  ∃ c t, skip_ws (array_tail (e :: l) ++ rest) = c :: t
         ∧ c ≠ 93%N.
Proof.
  rewrite array_tail_cons, <-app_assoc, skip_ws_value.
  destruct (stringify_head e) as (c & t & -> & Hc).
  apply starts_value_not_ws in Hc as (_ & Hc & _). by eexists _, _.
Qed.

Lemma object_tail_head kv m rest :
  ∃ c t, skip_ws (object_tail (kv :: m) ++ rest) = c :: t
         ∧ c ≠ 125%N.
Proof.
  rewrite object_tail_cons, <-app_assoc, quote_app. by eexists _, _.
Qed.

Theorem read_value_stringify v : wf_value v → reads_back v.
Proof.
  induction v as [|b|z|s|l IH|m IH] using jsvalue_ind;
    intros Hwf fuel rest Hfuel Hrest;
    (destruct fuel as [|fuel]; [simpl in Hfuel; lia|]);
    rewrite read_value_S.
  - done.
  - by destruct b.
  - unfold stringify, Number_toString. destruct (z <? 0) eqn:Hz.
    + rewrite <-app_comm_cons. simpl skip_ws. cbv iota.
      rewrite decide_False, decide_False, decide_False, decide_True by done.
      rewrite read_nat_toString by done. cbn [mbind option_bind].
      do 3 f_equal. rewrite N2Z.inj_abs_N. apply Z.ltb_lt in Hz. lia.
    + destruct (N_toString_head (Z.abs_N z))
        as (c & t & Hct & Hd & H1 & H2 & H3 & H4 & Hws & _).
      rewrite Hct, <-app_comm_cons. simpl skip_ws. rewrite Hws.
      rewrite decide_False, decide_False, decide_False, decide_False,
        decide_True by done.
      rewrite app_comm_cons, <-Hct, read_nat_toString by done.
      cbn [mbind option_bind]. do 3 f_equal. rewrite N2Z.inj_abs_N.
      apply Z.ltb_ge in Hz. lia.
  - simpl stringify. rewrite quote_app. simpl skip_ws. cbv iota.
    rewrite decide_True by done. by rewrite read_string_quote_units.
  - rewrite stringify_arr, <-app_comm_cons, (skip_ws_cons 91%N) by done.
    rewrite decide_False, decide_True by done.
    destruct l as [|e l]; [done|].
    destruct (array_tail_head e l rest) as (c & t & -> & Hne).
    rewrite decide_False by done.
    rewrite read_elements_tail; [done| |done|simpl in *; lia].
    apply wf_elements in Hwf. apply Forall_forall. intros x Hx.
    rewrite !Forall_forall in IH, Hwf. eauto.
  - rewrite stringify_obj, <-app_comm_cons, (skip_ws_cons 123%N) by done.
    rewrite decide_False, decide_False, decide_True by done.
    destruct m as [|kv m]; [done|].
    destruct (object_tail_head kv m rest) as (c & t & -> & Hne).
    rewrite decide_False by done.
    destruct Hwf as [Hnd Hwf].
    rewrite read_members_tail; [| |done|simpl in *; lia].
    + simpl. by rewrite make_object_nodup.
    + apply wf_members in Hwf. apply Forall_forall. intros x Hx.
      rewrite !Forall_forall in IH, Hwf. eauto.
Qed.

Lemma value_size_length v : (value_size v ≤ length (stringify v))%nat.
Proof.
  induction v as [|b|z|s|l IH|m IH] using jsvalue_ind.
  - simpl. lia.
  - destruct b; simpl; lia.
  - destruct (stringify_head (JNum z)) as (c & t & -> & _). simpl. lia.
  - simpl. lia.
  - rewrite stringify_arr. simpl. apply le_n_S.
    induction IH as [|e l He _ IHl]; [simpl; lia|].
    rewrite array_tail_cons, length_app. simpl foldr.
    destruct l as [|e' l]; [simpl in *; lia|].
    remember (array_tail (e' :: l)) as tl. simpl in *. lia.
  - rewrite stringify_obj. simpl. apply le_n_S.
    induction IH as [|kv m Hkv _ IHm]; [simpl; lia|].
    rewrite object_tail_cons, length_app. simpl foldr. simpl length.
    destruct m as [|kv' m]; [simpl in *; rewrite ?length_app; simpl; lia|].
    remember (object_tail (kv' :: m)) as tl.
    simpl in *. rewrite ?length_app. simpl. lia.
Qed.

(** [JSON.parse (JSON.stringify v)] is [v]. *)
Theorem parse_stringify v : wf_value v → parse (stringify v) = Some v.
Proof.
  intros Hwf. unfold parse.
  pose proof (read_value_stringify v Hwf (S (length (stringify v))) []) as H.
  rewrite app_nil_r in H. rewrite H; [done| |done].
  pose proof (value_size_length v). lia.
Qed.

(** The text of a value is never the empty string. *)
Lemma stringify_truthy v : truthy (stringify v) = true.
Proof. by destruct (stringify_head v) as (c & t & -> & _). Qed.
End JSON_facts.

(** ** Persistence *)

Lemma fst_prod_map {A B C} (f : B → C) (l : list (A * B)) :
  fst <$> (prod_map id f <$> l) = fst <$> l.
Proof. induction l as [|[] l IH]; [done|]. csimpl. by f_equal. Qed.

Lemma wf_likes_value m : wf_value (likes_value m).
Proof.
  unfold likes_value. simpl. split.
  - rewrite fst_prod_map. apply NoDup_fst_map_to_list.
  - apply JSON_facts.wf_members, Forall_fmap, Forall_true. by intros [].
Qed.

Lemma wf_avatars_value m : wf_value (avatars_value m).
Proof.
  unfold avatars_value. simpl. split.
  - rewrite fst_prod_map. apply NoDup_fst_map_to_list.
  - apply JSON_facts.wf_members, Forall_fmap, Forall_true. by intros [].
Qed.

Lemma wf_userLikes_value m : wf_value (userLikes_value m).
Proof.
  unfold userLikes_value. simpl. split.
  - rewrite fst_prod_map. apply NoDup_fst_map_to_list.
  - apply JSON_facts.wf_members, Forall_fmap, Forall_true. intros [k l]. simpl.
    apply JSON_facts.wf_elements, Forall_fmap, Forall_true. done.
Qed.

Lemma wf_comments_value l : wf_value (comments_value l).
Proof.
  unfold comments_value. simpl.
  apply JSON_facts.wf_elements, Forall_fmap, Forall_true. intros c. simpl.
  split; [|done]. refine (bool_decide_unpack _ _). by vm_compute.
Qed.

Lemma wf_cell_value c : wf_value (cell_value c).
Proof.
  destruct c.
  - apply wf_likes_value.
  - apply wf_userLikes_value.
  - apply wf_comments_value.
  - apply wf_avatars_value.
Qed.

#[local] Instance JStr_inj : Inj (=) (=) JStr.
Proof. by intros ?? [=]. Qed.
#[local] Instance JNum_inj : Inj (=) (=) JNum.
Proof. by intros ?? [=]. Qed.
#[local] Instance JArr_inj : Inj (=) (=) JArr.
Proof. by intros ?? [=]. Qed.
#[local] Instance comment_value_inj : Inj (=) (=) comment_value.
Proof. intros [] [] [=]. by subst. Qed.

(** Two cells of one kind with the same value hold the same data, so an
    identical value read back is an identical map or list. *)
Lemma cell_value_inj c1 c2 :
  match c1, c2 with
  | LikesCell _, LikesCell _ | UserLikesCell _, UserLikesCell _
  | CommentsCell _, CommentsCell _ | AvatarsCell _, AvatarsCell _ => True
  | _, _ => False
  end →
  cell_value c1 = cell_value c2 → c1 = c2.
Proof.
  assert (Hobj : ∀ {V} (f : V → jsvalue) (m1 m2 : gmap jsstring V),
            Inj (=) (=) f →
            JObj (prod_map id f <$> map_to_list m1)
            = JObj (prod_map id f <$> map_to_list m2) → m1 = m2).
  { intros V f m1 m2 Hf [= H]. apply (inj (fmap (prod_map id f))) in H.
    apply map_to_list_inj. by rewrite H. }
  destruct c1, c2; try done; intros _; simpl; intros H; f_equal.
  - by apply (Hobj _ JNum _ _ _ H).
  - apply (Hobj _ (λ l, JArr (JStr <$> l))); [|done].
    intros l1 l2 Hl. by apply (inj JArr), (inj (fmap JStr)) in Hl.
  - unfold comments_value in H. apply (inj JArr) in H.
    by apply (inj (fmap comment_value)) in H.
  - by apply (Hobj _ JStr _ _ _ H).
Qed.

Lemma loadFromStorage_fallback parse h key fallback :
  has_window h = false
  ∨ localStorage h = None
  ∨ (∃ ls, localStorage h = Some ls
           ∧ (Storage_getItem key ls = None
              ∨ Storage_getItem key ls = Some []
              ∨ ∃ raw, Storage_getItem key ls = Some raw ∧ parse raw = None)) →
  loadFromStorage parse h key fallback = fallback.
Proof.
  unfold loadFromStorage.
  intros [->|[Hls|(ls & Hls & [Hget|[Hget|(raw & Hget & Hraw)]])]]; [done|..];
    destruct (has_window h); simpl; [|done| |done| |done| |done];
    rewrite Hls; simpl; [done|..]; rewrite Hget; simpl; [done|done|].
  destruct raw; simpl; [done|]. by rewrite Hraw.
Qed.

Lemma Storage_get_set key value ls ls' :
  Storage_setItem key value ls = Some ls' → Storage_getItem key ls' = Some value.
Proof.
  unfold Storage_setItem, Storage_getItem. case_decide; [|done].
  intros [= <-]. simpl. apply lookup_insert_eq.
Qed.

Lemma loadFromStorage_saved stringify parse h key v fallback ls ls' :
  parse (stringify v) = Some v →
  truthy (stringify v) = true →
  has_window h = true →
  localStorage h = Some ls →
  Storage_setItem key (stringify v) ls = Some ls' →
  loadFromStorage parse (saveToStorage stringify h key v) key fallback = v.
Proof.
  intros Hparse Htruthy Hwin Hls Hset.
  unfold saveToStorage. rewrite Hwin, Hls. simpl. rewrite Hset. simpl.
  unfold loadFromStorage. simpl.
  rewrite (Storage_get_set _ _ _ _ Hset), Htruthy. simpl. by rewrite Hparse.
Qed.

(** C4, as the code has it.  For a [JSON] that reads back what it writes:
    when the store is there and takes the write, each of the four cells
    saved under its key is loaded back unchanged; and when there is no
    window, the store cannot be used, the entry is missing or empty, or its
    text does not parse, loading gives the default passed in. *)
Theorem storage_round_trip stringify parse :
  (∀ v, wf_value v → parse (stringify v) = Some v) →
  (∀ v, truthy (stringify v) = true) →
  (∀ c h ls ls',
     has_window h = true →
     localStorage h = Some ls →
     Storage_setItem (cell_key c) (stringify (cell_value c)) ls = Some ls' →
     loadFromStorage parse (saveToStorage stringify h (cell_key c) (cell_value c))
                     (cell_key c) (cell_fallback c)
     = cell_value c)
  ∧ (∀ h key fallback,
       has_window h = false
       ∨ localStorage h = None
       ∨ (∃ ls, localStorage h = Some ls
                ∧ (Storage_getItem key ls = None
                   ∨ Storage_getItem key ls = Some []
                   ∨ ∃ raw, Storage_getItem key ls = Some raw ∧ parse raw = None)) →
       loadFromStorage parse h key fallback = fallback).
Proof.
  intros Hlaw Htruthy. split.
  - intros c h ls ls'. apply loadFromStorage_saved; [|done].
    apply Hlaw, wf_cell_value.
  - intros h key fallback. apply loadFromStorage_fallback.
Qed.

Lemma storage_round_trip_witness :
  loadFromStorage JSON.parse
    (saveToStorage JSON.stringify roomy_host LIKES_KEY (likes_value one_like))
    LIKES_KEY (JObj [])
  = likes_value one_like
  ∧ loadFromStorage JSON.parse roomy_host COMMENTS_KEY (JArr []) = JArr [].
Proof.
  pose proof (storage_round_trip JSON.stringify JSON.parse
                JSON_facts.parse_stringify JSON_facts.stringify_truthy)
    as [Hsaved Hfallback].
  split.
  - apply (Hsaved (LikesCell one_like) roomy_host (mkStorage ∅ 5000000)
                  (mkStorage {[ LIKES_KEY := JSON.stringify (likes_value one_like) ]}
                             5000000)).
    + reflexivity.
    + reflexivity.
    + vm_compute. reflexivity.
  - apply Hfallback. right. right. exists (mkStorage ∅ 5000000).
    split; [reflexivity|]. left. reflexivity.
Defined.

(** C4 as stated fails: a store that takes no data drops the write, and
    loading gives the default, not the map that was saved. *)
Lemma storage_round_trip_counterexample :
  loadFromStorage JSON.parse
    (saveToStorage JSON.stringify no_quota_host LIKES_KEY (likes_value one_like))
    LIKES_KEY (JObj [])
  = JObj []
  ∧ likes_value one_like ≠ JObj [].
Proof. split; [by vm_compute | by vm_compute]. Qed.

(** * Further properties *)

(** ** Runs *)

(** Reading back the value of a cell gives the cell. *)
Lemma dictionary_of_value_members {A} (f : jsvalue → option A) (g : A → jsvalue)
      (m : gmap jsstring A) :
  (∀ a, f (g a) = Some a) →
  dictionary_of_value f (JObj (prod_map id g <$> map_to_list m)) = m.
Proof.
  intros Hfg. unfold dictionary_of_value.
  rewrite <-(list_to_map_to_list m) at 2. f_equal.
  induction (map_to_list m) as [|[k a] l IH]; [done|].
  csimpl. rewrite Hfg. simpl. by rewrite IH.
Qed.

Lemma likes_of_value_likes_value m : likes_of_value (likes_value m) = m.
Proof. by apply dictionary_of_value_members. Qed.

Lemma avatars_of_value_avatars_value m : avatars_of_value (avatars_value m) = m.
Proof. by apply dictionary_of_value_members. Qed.

Lemma userLikes_of_value_userLikes_value m :
  userLikes_of_value (userLikes_value m) = m.
Proof.
  apply (dictionary_of_value_members strings_of_value (λ l, JArr (JStr <$> l))).
  intros l. simpl. f_equal. induction l as [|x l IH]; [done|].
  csimpl. by rewrite IH.
Qed.

Lemma comments_of_value_comments_value l :
  comments_of_value (comments_value l) = l.
Proof.
  unfold comments_of_value, comments_value.
  induction l as [|c l IH]; [done|]. csimpl.
  rewrite IH. by destruct c.
Qed.

Lemma cell_keys_distinct c1 c2 :
  cell_key c1 = cell_key c2 →
  match c1, c2 with
  | LikesCell _, LikesCell _ | UserLikesCell _, UserLikesCell _
  | CommentsCell _, CommentsCell _ | AvatarsCell _, AvatarsCell _ => True
  | _, _ => False
  end.
Proof. destruct c1, c2; simpl; (done || by vm_compute). Qed.

Section run_invariant.
Variable Pu : option CurrentUser → Prop.
Variable P : Cell → Prop.
Hypothesis Pu_None : Pu None.
Hypothesis P_empty : cells_hold P initial_state.
Hypothesis step_keeps :
  ∀ ev st, Pu (currentUser st) → cells_hold P st →
           Pu (currentUser (app_step ev st)) ∧ cells_hold P (app_step ev st).

Lemma first_visit_holds h : first_visit h → store_holds P h.
Proof.
  intros Hh ls key raw Hls Hraw. rewrite (Hh _ Hls) in Hraw.
  by rewrite lookup_empty in Hraw.
Qed.

Lemma saveEffect_holds c h :
  P c → store_holds P h → store_holds P (saveEffect c h).
Proof.
  intros Hc Hh. unfold saveEffect, saveToStorage.
  destruct (has_window h); simpl; [|done].
  destruct (localStorage h) as [ls|] eqn:Hls; simpl; [|done].
  unfold Storage_setItem. case_decide; simpl; [|done].
  intros ls' key raw [= <-]. simpl.
  destruct (decide (key = cell_key c)) as [->|Hne].
  - rewrite lookup_insert_eq. intros [= <-]. by exists c.
  - rewrite lookup_insert_ne by done. by apply Hh.
Qed.

Lemma saveEffects_holds st h :
  cells_hold P st → store_holds P h →
  store_holds P (saveEffects JSON.stringify st h).
Proof.
  intros (Hl & Hul & Hc & Ha) Hh. unfold saveEffects.
  apply (saveEffect_holds (AvatarsCell _)); [done|].
  apply (saveEffect_holds (CommentsCell _)); [done|].
  apply (saveEffect_holds (UserLikesCell _)); [done|].
  by apply (saveEffect_holds (LikesCell _)).
Qed.

(** What is loaded under the key of a cell is the default, or the value
    of a cell of that kind that the store holds. *)
Lemma loadFromStorage_holds h c0 fallback :
  store_holds P h →
  loadFromStorage JSON.parse h (cell_key c0) fallback = fallback
  ∨ ∃ c, cell_key c = cell_key c0 ∧ P c
         ∧ loadFromStorage JSON.parse h (cell_key c0) fallback = cell_value c.
Proof.
  intros Hh. unfold loadFromStorage.
  destruct (has_window h); simpl; [|by left].
  destruct (localStorage h) as [ls|] eqn:Hls; simpl; [|by left].
  unfold Storage_getItem.
  destruct (items ls !! cell_key c0) as [raw|] eqn:Hraw; simpl; [|by left].
  destruct (Hh _ _ _ Hls Hraw) as (c & Hk & Hc & ->).
  rewrite JSON_facts.stringify_truthy. simpl.
  rewrite JSON_facts.parse_stringify by apply wf_cell_value.
  right. by exists c.
Qed.

Lemma hydrate_holds h :
  store_holds P h → cells_hold P (hydrate (hydrationEffect JSON.parse h)).
Proof.
  intros Hh. destruct P_empty as (Hl & Hul & Hc & Ha).
  unfold hydrate, hydrationEffect, cells_hold.
  cbn [likes userLikes comments avatars setAvatars setComments setUserLikes
       setLikes storedLikes storedUserLikes storedComments storedAvatars
       initial_state].
  repeat split.
  - destruct (loadFromStorage_holds h (LikesCell ∅) (JObj []) Hh)
      as [Hf|(c & Hk & Hc' & Hf)]; cbn [cell_key] in Hf; rewrite Hf; [done|].
    apply cell_keys_distinct in Hk. destruct c; try done. cbn [cell_value].
    by rewrite likes_of_value_likes_value.
  - destruct (loadFromStorage_holds h (UserLikesCell ∅) (JObj []) Hh)
      as [Hf|(c & Hk & Hc' & Hf)]; cbn [cell_key] in Hf; rewrite Hf; [done|].
    apply cell_keys_distinct in Hk. destruct c; try done. cbn [cell_value].
    by rewrite userLikes_of_value_userLikes_value.
  - destruct (loadFromStorage_holds h (CommentsCell []) (JArr []) Hh)
      as [Hf|(c & Hk & Hc' & Hf)]; cbn [cell_key] in Hf; rewrite Hf; [done|].
    apply cell_keys_distinct in Hk. destruct c; try done. cbn [cell_value].
    by rewrite comments_of_value_comments_value.
  - destruct (loadFromStorage_holds h (AvatarsCell ∅) (JObj []) Hh)
      as [Hf|(c & Hk & Hc' & Hf)]; cbn [cell_key] in Hf; rewrite Hf; [done|].
    apply cell_keys_distinct in Hk. destruct c; try done. cbn [cell_value].
    by rewrite avatars_of_value_avatars_value.
Qed.

Lemma mount_holds h :
  store_holds P h →
  Pu (currentUser (app (mount h))) ∧ cells_hold P (app (mount h))
  ∧ store_holds P (browser (mount h)).
Proof.
  intros Hh. pose proof (hydrate_holds h Hh) as Hst.
  unfold mount. simpl. split; [done|]. split; [done|].
  apply saveEffects_holds; [done|]. by apply saveEffects_holds.
Qed.

Lemma effects_after_holds ev st h :
  cells_hold P (app_step ev st) → store_holds P h →
  store_holds P (effects_after ev st h).
Proof.
  intros (Hl & Hul & Hc & Ha) Hh. destruct ev; simpl; try done.
  - destruct (currentUser st); [|done].
    destruct (toggleLike_call vid st); [|done].
    by apply saveEffect_holds, saveEffect_holds.
  - destruct (currentUser st); [|done].
    destruct (truthy _); [|done]. by apply saveEffect_holds.
  - by apply saveEffect_holds.
Qed.

(** What the empty cells have and every event keeps holds all along a
    run, of the state and of the store, reloads included. *)
Lemma run_invariant w :
  run w →
  Pu (currentUser (app w)) ∧ cells_hold P (app w) ∧ store_holds P (browser w).
Proof.
  induction 1 as [h Hh|ev w _ (Hu & Hc & Hs)|w _ (Hu & Hc & Hs)].
  - by apply mount_holds, first_visit_holds.
  - destruct (step_keeps ev (app w) Hu Hc) as [Hu' Hc'].
    split; [done|]. split; [done|]. by apply effects_after_holds.
  - by apply mount_holds.
Qed.
End run_invariant.

(** The empty state is one of a run, and every event leads from a state
    of a run to a state of a run. *)
Lemma reachable_initial : reachable initial_state.
Proof.
  exists (mount (mkHost true None)). split; [|done].
  apply run_open. by intros ls [=].
Qed.

Lemma reachable_step ev st : reachable st → reachable (app_step ev st).
Proof.
  intros (w & Hw & <-). exists (world_step ev w). split; [|done].
  by apply run_event.
Qed.

Lemma reachable_reload w : run w → reachable (app (mount (browser w))).
Proof. intros Hw. eexists. split; [|done]. by apply run_reload. Qed.

(** ** Likes *)

(** X1. For a signed-in user whose list can be read, a toggle flips
    whether that user has liked the video and leaves the answer for every
    other video as it was.  For a user whose name is a property that
    [userLikes] inherits, the question throws before and after the toggle,
    and the toggle throws exactly when the question does. *)
Theorem toggleLike_flips_userHasLiked st u vid vid' :
  currentUser st = Some u →
  userHasLiked (toggleLike vid st) vid'
  = match userHasLiked st vid' with
    | Normal liked => Normal (if decide (vid' = vid) then negb liked else liked)
    | TypeError => TypeError
    end
  ∧ (toggleLike_call vid st = TypeError ↔ userHasLiked st vid' = TypeError).
Proof.
  intros Hu.
  destruct (get_or (userLikes st) (username u) []) as [l|p] eqn:Hl.
  - split.
    + rewrite (toggleLike_logged_in _ _ _ _ Hu Hl).
      unfold userHasLiked. rewrite Hu, Hl. cbn [currentUser userLikes].
      rewrite get_or_insert, toggled_includes.
      apply get_or_inl in Hl as <-.
      by destruct (decide (vid' = vid)) as [->|].
    + unfold toggleLike_call, userHasLiked. rewrite Hu, Hl. done.
  - split.
    + rewrite (toggleLike_throws _ _ _ _ Hu Hl).
      unfold userHasLiked. by rewrite Hu, Hl.
    + unfold toggleLike_call, userHasLiked. by rewrite Hu, Hl.
Qed.

Lemma toggleLike_flips_userHasLiked_witness :
  userHasLiked (toggleLike (js "wowfinalfinal1") liked_once) (js "wowfinalfinal1")
  = match userHasLiked liked_once (js "wowfinalfinal1") with
    | Normal liked =>
        Normal (if decide (js "wowfinalfinal1" = js "wowfinalfinal1")
                then negb liked else liked)
    | TypeError => TypeError
    end.
Proof.
  apply (toggleLike_flips_userHasLiked liked_once alice). reflexivity.
Defined.

(** X2. In a state whose counts agree with the lists, as the empty state
    has them and every event keeps them, a toggle by a signed-in user
    whose list can be read moves the count of the video by exactly one:
    up when the user had not liked it, down when the user had.  The floor
    at zero does not decide the new count. *)
Theorem toggleLike_count_by_one st u vid liked :
  likes_consistent st →
  currentUser st = Some u →
  userHasLiked st vid = Normal liked →
  likesForVideo (toggleLike vid st) vid
  = if liked then likesForVideo st vid - 1 else likesForVideo st vid + 1.
Proof.
  intros Hinv Hu. unfold userHasLiked. rewrite Hu.
  destruct (get_or (userLikes st) (username u) []) as [l|p] eqn:Hl; [|done].
  intros [= <-].
  destruct (likes_consistent_toggleLike vid _ Hinv vid) as [-> _].
  destruct (Hinv vid) as [-> _].
  rewrite (toggleLike_logged_in _ _ _ _ Hu Hl). simpl.
  rewrite likers_insert, toggled_includes, decide_True by done.
  apply get_or_inl in Hl as <-.
  destruct (includes vid _); simpl; lia.
Qed.

Lemma toggleLike_count_by_one_witness :
  likesForVideo (toggleLike (js "wowfinalfinal1") liked_once) (js "wowfinalfinal1")
  = likesForVideo liked_once (js "wowfinalfinal1") - 1.
Proof.
  apply (toggleLike_count_by_one liked_once alice (js "wowfinalfinal1") true).
  - apply (likes_consistent_step (ToggleLike _)),
      (likes_consistent_step (AuthStateChange _)), likes_consistent_initial.
  - reflexivity.
  - reflexivity.
Defined.

Lemma toggled_NoDup vid (old : list jsstring) : NoDup old → NoDup (toggled vid old).
Proof.
  intros Hnd. unfold toggled. destruct (includes vid old) eqn:E.
  - by apply NoDup_filter.
  - apply NoDup_app. split; [done|]. split; [|apply NoDup_singleton].
    intros x Hx ->%list_elem_of_singleton.
    apply includes_spec in Hx. congruence.
Qed.

Lemma lists_NoDup_step ev st :
  cells_hold lists_NoDup st → cells_hold lists_NoDup (app_step ev st).
Proof.
  intros (_ & Hinv & _). split; [done|]. split; [|done].
  simpl in *. destruct ev; simpl; try exact Hinv.
  - by destruct session.
  - unfold handleAuthSubmit. destruct (_ || _); [exact Hinv|].
    destruct resp as [|[u|]], mode; exact Hinv.
  - destruct (currentUser st) as [cu|] eqn:Hcu.
    + destruct (get_or (userLikes st) (username cu) []) as [l|p] eqn:Hl.
      2:{ by rewrite (toggleLike_throws _ _ _ _ Hcu Hl). }
      rewrite (toggleLike_logged_in _ _ _ _ Hcu Hl). simpl. intros name l'.
      destruct (decide (name = username cu)) as [->|Hne].
      * rewrite lookup_insert_eq. intros [= <-]. apply toggled_NoDup.
        destruct (userLikes st !! username cu) eqn:Hold; simpl;
          [by eapply Hinv | constructor].
      * rewrite lookup_insert_ne by done. apply Hinv.
    + rewrite toggleLike_logged_out by done. exact Hinv.
  - unfold handleAddComment. destruct (currentUser st); [|exact Hinv].
    destruct (negb _); exact Hinv.
Qed.

Lemma reachable_lists_NoDup st name :
  reachable st → NoDup (default [] (userLikes st !! name)).
Proof.
  intros (w & Hw & <-).
  destruct (run_invariant (λ _, True) lists_NoDup) with (w := w)
    as (_ & (_ & Hnd & _) & _); [done|done| |done|].
  { intros ev st _ Hc. split; [done|]. by apply lists_NoDup_step. }
  simpl in Hnd. destruct (userLikes (app w) !! name) eqn:Hl; simpl;
    [by eapply Hnd | constructor].
Qed.

(** X3. In every state of a run, reloads included, no user's list names
    a video twice; so for a name that has a list, or that is no property
    of [Object.prototype], the "likes given" figure is the size of the
    like-membership set of that name. *)
Theorem user_likes_no_duplicates st name :
  reachable st →
  NoDup (default [] (userLikes st !! name))
  ∧ (is_Some (userLikes st !! name) ∨ inherited name = None →
       totalLikesByUser st name = Some (Z.of_nat (size (likeSet st name)))).
Proof.
  intros Hreach. pose proof (reachable_lists_NoDup _ name Hreach) as Hnd.
  split; [done|]. intros Hname. unfold totalLikesByUser, likeSet, get_or.
  rewrite size_list_to_set by done.
  destruct (userLikes st !! name) as [l|]; [done|].
  destruct Hname as [Hs|Hn]; [by destruct Hs | by rewrite Hn].
Qed.

Lemma user_likes_no_duplicates_witness :
  totalLikesByUser liked_once (username alice)
  = Some (Z.of_nat (size (likeSet liked_once (username alice)))).
Proof.
  apply (user_likes_no_duplicates liked_once (username alice)).
  - apply (reachable_step (ToggleLike _)), (reachable_step (AuthStateChange _)),
      reachable_initial.
  - right. reflexivity.
Defined.

Lemma filter_ne_absent (x : jsstring) (l : list jsstring) :
  x ∉ l → filter (λ y, y ≠ x) l = l.
Proof.
  induction l as [|y l IH]; [done|]. intros [Hne Hx]%not_elem_of_cons.
  rewrite filter_cons_True by done. by rewrite IH.
Qed.

Lemma length_filter_ne (x : jsstring) (l : list jsstring) :
  NoDup l → x ∈ l → (length (filter (λ y, y ≠ x) l) + 1 = length l)%nat.
Proof.
  induction 1 as [|y l Hy Hnd IH]; [by intros ?%elem_of_nil|].
  intros [Heq|Hx]%elem_of_cons.
  - subst y. rewrite filter_cons_False by (intros H; by apply H). simpl.
    rewrite filter_ne_absent by done. lia.
  - rewrite filter_cons_True by (intros ->; done). simpl. rewrite <-IH by done. lia.
Qed.

(** X4. In every state of a run, reloads included, a toggle by a
    signed-in user whose list can be read moves the "likes given" figure
    of that user by exactly one: down when the user had liked the video,
    up when not. *)
Theorem toggleLike_totalLikesByUser st u vid liked :
  reachable st →
  currentUser st = Some u →
  userHasLiked st vid = Normal liked →
  ∃ n, totalLikesByUser st (username u) = Some n
       ∧ totalLikesByUser (toggleLike vid st) (username u)
         = Some (if liked then n - 1 else n + 1).
Proof.
  intros Hreach Hu.
  pose proof (reachable_lists_NoDup _ (username u) Hreach) as Hnd.
  unfold userHasLiked. rewrite Hu.
  destruct (get_or (userLikes st) (username u) []) as [l|p] eqn:Hl; [|done].
  intros [= <-]. exists (Z.of_nat (length l)).
  rewrite (toggleLike_logged_in _ _ _ _ Hu Hl).
  unfold totalLikesByUser. rewrite Hl. cbn [userLikes].
  rewrite get_or_insert. split; [done|]. f_equal.
  rewrite <-(get_or_inl _ _ _ _ Hl) in *. unfold toggled.
  destruct (includes vid _) eqn:E.
  - apply includes_spec in E.
    pose proof (length_filter_ne vid _ Hnd E). lia.
  - rewrite length_app. simpl. lia.
Qed.

Lemma toggleLike_totalLikesByUser_witness :
  ∃ n, totalLikesByUser liked_once (username alice) = Some n
       ∧ totalLikesByUser (toggleLike (js "wowfinalfinal2") liked_once)
           (username alice)
         = Some (n + 1).
Proof.
  apply (toggleLike_totalLikesByUser liked_once alice (js "wowfinalfinal2") false).
  - apply (reachable_step (ToggleLike _)), (reachable_step (AuthStateChange _)),
      reachable_initial.
  - reflexivity.
  - reflexivity.
Defined.

(** ** Signing out, and who writes which cell *)

(** X5. Logging out, or a session that ends, leaves no user; and with no
    user a like or a comment is refused: counts, lists and comments stay as
    they were, no video shows as liked, and the matching message is set. *)
Theorem signed_out_actions_refused st clk vid txt :
  currentUser (handleLogout st) = None
  ∧ currentUser (onAuthStateChange None st) = None
  ∧ (currentUser st = None →
       likes (toggleLike vid st) = likes st
       ∧ userLikes (toggleLike vid st) = userLikes st
       ∧ userHasLiked (toggleLike vid st) vid = Normal false
       ∧ authError (toggleLike vid st)
         = Some (js "You need to be logged in to like videos.")
       ∧ comments (handleAddComment clk vid txt st) = comments st
       ∧ authError (handleAddComment clk vid txt st)
         = Some (js "You need to be logged in to comment.")).
Proof.
  split; [done|]. split; [done|]. intros Hu.
  rewrite toggleLike_logged_out by done.
  unfold handleAddComment, userHasLiked. simpl. by rewrite Hu.
Qed.

Lemma signed_out_actions_refused_witness :
  likes (toggleLike (js "wowfinalfinal1") (handleLogout liked_once))
  = likes (handleLogout liked_once)
  ∧ userLikes (toggleLike (js "wowfinalfinal1") (handleLogout liked_once))
    = userLikes (handleLogout liked_once)
  ∧ userHasLiked (toggleLike (js "wowfinalfinal1") (handleLogout liked_once))
      (js "wowfinalfinal1") = Normal false
  ∧ authError (toggleLike (js "wowfinalfinal1") (handleLogout liked_once))
    = Some (js "You need to be logged in to like videos.")
  ∧ comments (handleAddComment noon (js "wowfinalfinal1") (js "nice")
                (handleLogout liked_once))
    = comments (handleLogout liked_once)
  ∧ authError (handleAddComment noon (js "wowfinalfinal1") (js "nice")
                 (handleLogout liked_once))
    = Some (js "You need to be logged in to comment.").
Proof.
  apply (proj2 (proj2 (signed_out_actions_refused (handleLogout liked_once) noon
                         (js "wowfinalfinal1") (js "nice")))).
  reflexivity.
Defined.

Lemma handleAuthSubmit_cells mode e p resp st :
  likes (handleAuthSubmit mode e p resp st) = likes st
  ∧ userLikes (handleAuthSubmit mode e p resp st) = userLikes st
  ∧ avatars (handleAuthSubmit mode e p resp st) = avatars st
  ∧ comments (handleAuthSubmit mode e p resp st) = comments st.
Proof.
  unfold handleAuthSubmit. destruct (_ || _); [done|].
  by destruct resp as [|[u|]], mode.
Qed.

Lemma toggleLike_cells vid st :
  avatars (toggleLike vid st) = avatars st
  ∧ comments (toggleLike vid st) = comments st.
Proof.
  destruct (currentUser st) as [cu|] eqn:Hcu.
  - destruct (get_or (userLikes st) (username cu) []) as [l|p] eqn:Hl.
    + by rewrite (toggleLike_logged_in _ _ _ _ Hcu Hl).
    + by rewrite (toggleLike_throws _ _ _ _ Hcu Hl).
  - by rewrite toggleLike_logged_out.
Qed.

Lemma handleAddComment_cells clk vid txt st :
  likes (handleAddComment clk vid txt st) = likes st
  ∧ userLikes (handleAddComment clk vid txt st) = userLikes st
  ∧ avatars (handleAddComment clk vid txt st) = avatars st
  ∧ currentUser (handleAddComment clk vid txt st) = currentUser st
  ∧ comments st `prefix_of` comments (handleAddComment clk vid txt st).
Proof.
  unfold handleAddComment. destruct (currentUser st) eqn:Hcu; [|done].
  destruct (negb _); [done|]. simpl. rewrite Hcu. repeat split. by eexists.
Qed.

(** Every event but a comment submission leaves the comments alone. *)
Lemma app_step_comments ev st :
  comments (app_step ev st) = comments st
  ∨ ∃ clk vid txt, ev = AddComment clk vid txt.
Proof.
  destruct ev; simpl; eauto.
  - left. by destruct session.
  - left. apply handleAuthSubmit_cells.
  - left. apply toggleLike_cells.
Qed.

(** X6. Each cell of user data has one writer.  Only a like toggle
    changes counts or lists, only a loaded avatar changes the avatars, and
    the comments only ever grow at the end: no event edits or removes a
    comment that is there. *)
Theorem cells_have_one_writer ev st :
  ((∀ vid, ev ≠ ToggleLike vid) →
     likes (app_step ev st) = likes st ∧ userLikes (app_step ev st) = userLikes st)
  ∧ ((∀ cu dataUrl, ev ≠ AvatarLoaded cu dataUrl) →
       avatars (app_step ev st) = avatars st)
  ∧ ((∀ clk vid txt, ev ≠ AddComment clk vid txt) →
       comments (app_step ev st) = comments st)
  ∧ comments st `prefix_of` comments (app_step ev st).
Proof.
  destruct ev; simpl.
  - by destruct session.
  - destruct (handleAuthSubmit_cells mode emailInput passwordInput resp st)
      as (-> & -> & -> & ->).
    done.
  - done.
  - done.
  - destruct (toggleLike_cells vid st) as [-> ->].
    split; [intros H; by destruct (H vid)|done].
  - destruct (handleAddComment_cells clk vid txt st) as (-> & -> & -> & _ & Hp).
    split; [done|]. split; [done|].
    split; [intros H; by destruct (H clk vid txt)|done].
  - split; [done|]. split; [intros H; by destruct (H cu dataUrl)|done].
Qed.

Lemma cells_have_one_writer_witness :
  likes (app_step (AddComment noon (js "wowfinalfinal1") (js "nice")) liked_once)
  = likes liked_once
  ∧ userLikes (app_step (AddComment noon (js "wowfinalfinal1") (js "nice")) liked_once)
    = userLikes liked_once.
Proof.
  apply (proj1 (cells_have_one_writer
                  (AddComment noon (js "wowfinalfinal1") (js "nice")) liked_once)).
  discriminate.
Defined.

(** ** Usernames *)

Lemma deriveUsername_nonempty email : deriveUsername email ≠ [].
Proof.
  unfold deriveUsername. destruct email as [[|c e]|]; try done. simpl.
  unfold or_else. destruct (head _) as [[|]|]; done.
Qed.

Lemma sessionUsername_not_nil u : sessionUsername u ≠ [].
Proof.
  unfold sessionUsername, or_else.
  destruct (_ ≫= _) as [[|c s]|]; simpl; (done || apply deriveUsername_nonempty).
Qed.

Lemma named_step ev st : named (currentUser st) → named (currentUser (app_step ev st)).
Proof.
  unfold named. intros IH. destruct ev; simpl.
  - destruct session as [u|]; simpl; [|done].
    intros cu [= <-]. apply sessionUsername_not_nil.
  - unfold handleAuthSubmit. destruct (_ || _); [exact IH|].
    destruct resp as [|[u|]], mode; simpl; try exact IH;
      intros cu [= <-]; apply sessionUsername_not_nil.
  - exact IH.
  - done.
  - by rewrite toggleLike_keeps_user.
  - destruct (handleAddComment_cells clk vid txt st) as (_ & _ & _ & -> & _).
    exact IH.
  - exact IH.
Qed.

Lemma reachable_username st cu :
  reachable st → currentUser st = Some cu → username cu ≠ [].
Proof.
  intros (w & Hw & <-).
  destruct (run_invariant named (λ _, True)) with (w := w) as (Hu & _);
    [done|done| |done|apply Hu].
  intros ev st Hu _. split; [by apply named_step | done].
Qed.

(** X7. No session gives an empty username, and so no signed-in user of a
    state of a run, reloads included, has one: the name shown in the
    header, and the letter taken from it for the avatar placeholder, are
    always there. *)
Theorem username_nonempty :
  (∀ u, sessionUsername u ≠ [])
  ∧ (∀ st cu, reachable st → currentUser st = Some cu → username cu ≠ []).
Proof.
  split; [apply sessionUsername_not_nil | apply reachable_username].
Qed.

Lemma username_nonempty_witness : username alice ≠ [].
Proof.
  apply (proj2 username_nonempty liked_once alice).
  - apply (reachable_step (ToggleLike _)), (reachable_step (AuthStateChange _)),
      reachable_initial.
  - reflexivity.
Defined.

(** X8. Sign-up sends [deriveUsername] of the email as the username
    metadata.  A session that carries this metadata gets the username that
    the email alone would have given, so the name does not depend on
    whether the identity service kept the metadata. *)
Theorem signup_metadata_agrees id e :
  sessionUsername
    (mkSessionUser id (Some e) (Some (mkUserMetadata (Some (deriveUsername (Some e))))))
  = sessionUsername (mkSessionUser id (Some e) None).
Proof.
  unfold sessionUsername.
  cbn [su_user_metadata su_email md_username mbind option_bind].
  generalize (deriveUsername_nonempty (Some e)).
  generalize (deriveUsername (Some e)). by intros [|c s].
Qed.

Lemma local_part_prefix e : local_part e `prefix_of` e.
Proof.
  induction e as [|c e IH]; simpl; [done|].
  case_decide; [apply prefix_nil | by apply prefix_cons].
Qed.

Lemma local_part_no_at e : at_sign ∉ local_part e.
Proof.
  induction e as [|c e IH]; simpl; [apply not_elem_of_nil|].
  case_decide; [apply not_elem_of_nil|].
  apply not_elem_of_cons. split; [congruence | done].
Qed.

(** X9. For an email that does not begin with [@], the derived name is
    the beginning of the email and has no [@] in it. *)
Theorem deriveUsername_local e :
  e ≠ [] →
  head e ≠ Some at_sign →
  deriveUsername (Some e) `prefix_of` e ∧ at_sign ∉ deriveUsername (Some e).
Proof.
  intros He Hat. rewrite deriveUsername_some by done.
  destruct e as [|c e]; [done|]. simpl in *.
  destruct (decide (c = at_sign)) as [->|Hc]; [done|].
  rewrite decide_False by done.
  split.
  - apply prefix_cons, local_part_prefix.
  - apply not_elem_of_cons. split; [congruence | apply local_part_no_at].
Qed.

Lemma deriveUsername_local_witness :
  deriveUsername (Some (js "alice@example.com")) `prefix_of` js "alice@example.com"
  ∧ at_sign ∉ deriveUsername (Some (js "alice@example.com")).
Proof.
  apply (deriveUsername_local (js "alice@example.com")); discriminate.
Defined.

(** ** Comments *)

Lemma trimStart_suffix s : trimStart s `suffix_of` s.
Proof.
  induction s as [|c s IH]; simpl; [done|].
  destruct (is_trimmed_unit c); [by apply suffix_cons_r | done].
Qed.

Lemma trimStart_fixed c s : is_trimmed_unit c = false → trimStart (c :: s) = c :: s.
Proof. intros H. simpl. by rewrite H. Qed.

(** Trimming a trimmed text changes nothing. *)
Lemma trim_idempotent s : trim (trim s) = trim s.
Proof.
  unfold trim, trimEnd.
  destruct (trimStart (reverse (trimStart s))) as [|c u] eqn:Hu; [done|].
  pose proof (trimStart_head _ _ _ Hu) as Hc.
  pose proof (trimStart_suffix (reverse (trimStart s))) as [p Hp].
  rewrite Hu in Hp. apply (f_equal reverse) in Hp.
  rewrite reverse_involutive, reverse_app in Hp.
  destruct (reverse (c :: u)) as [|d r] eqn:Hr.
  { apply (f_equal reverse) in Hr. by rewrite reverse_involutive in Hr. }
  assert (is_trimmed_unit d = false) as Hd.
  { destruct (trimStart s) as [|d' t'] eqn:Ht; [done|].
    apply trimStart_head in Ht. simpl in Hp. by injection Hp as -> _. }
  rewrite (trimStart_fixed d r Hd), <-Hr, reverse_involutive.
  by rewrite (trimStart_fixed c u Hc).
Qed.

Lemma handleAddComment_appended clk vid txt st u :
  currentUser st = Some u →
  trim txt ≠ [] →
  handleAddComment clk vid txt st
  = setComments
      (comments st ++
       [mkComment (vid ++ js "-" ++ Number_toString (Date_now clk)) vid
                  (username u) (trim txt) (Date_toISOString clk)]) st.
Proof.
  intros Hu Hne. unfold handleAddComment. rewrite Hu.
  by destruct (trim txt).
Qed.

Lemma handleAddComment_blank clk vid txt st u :
  currentUser st = Some u → trim txt = [] → handleAddComment clk vid txt st = st.
Proof. intros Hu Hb. unfold handleAddComment. by rewrite Hu, Hb. Qed.

Lemma comments_ok_step ev st :
  named (currentUser st) → cells_hold comments_ok st →
  cells_hold comments_ok (app_step ev st).
Proof.
  intros Hu (_ & _ & IH & _). split; [done|]. split; [done|]. split; [|done].
  simpl in *.
  destruct (app_step_comments ev st) as [->|(clk & vid & txt & ->)];
    [exact IH|].
  simpl. destruct (currentUser st) as [cu|] eqn:Hcu.
  2:{ unfold handleAddComment. by rewrite Hcu. }
  destruct (decide (trim txt = [])) as [Hb|Hne].
  { by rewrite (handleAddComment_blank _ _ _ _ _ Hcu Hb). }
  rewrite (handleAddComment_appended _ _ _ _ _ Hcu Hne). simpl.
  apply Forall_app. split; [exact IH|]. constructor; [|constructor].
  unfold comment_ok. simpl.
  split; [done|]. split; [apply trim_idempotent|].
  split; [by apply Hu|].
  exists (Number_toString (Date_now clk)). by rewrite <-app_assoc.
Qed.

Lemma reachable_comments_ok st :
  reachable st → named (currentUser st) ∧ Forall comment_ok (comments st).
Proof.
  intros (w & Hw & <-).
  destruct (run_invariant named comments_ok) with (w := w)
    as (Hu & (_ & _ & Hc & _) & _); [done| | |done|done].
  { repeat split. constructor. }
  intros ev st Hu Hc. split; [by apply named_step | by apply comments_ok_step].
Qed.

(** X10. Every comment stored in a state of a run, reloads included, has
    a text that is not empty and carries no white space at either end, an
    author that is not empty, and an id that starts with the id of its
    video followed by a hyphen. *)
Theorem stored_comments_well_formed st :
  reachable st →
  Forall (λ c, text c ≠ [] ∧ trim (text c) = text c ∧ author c ≠ []
               ∧ (videoId c ++ js "-") `prefix_of` comment_id c)
         (comments st).
Proof. intros [_ Hc]%reachable_comments_ok. exact Hc. Qed.

Lemma stored_comments_well_formed_witness :
  Forall (λ c, text c ≠ [] ∧ trim (text c) = text c ∧ author c ≠ []
               ∧ (videoId c ++ js "-") `prefix_of` comment_id c)
         (comments same_instant_comments).
Proof.
  apply (stored_comments_well_formed same_instant_comments).
  apply (reachable_step (AddComment _ _ _)), (reachable_step (AddComment _ _ _)),
    (reachable_step (AuthStateChange _)), reachable_initial.
Defined.

(** X11. For a video with fewer than 64 comments, the comments presented
    are the stored comments of that video and no others, each as often as
    it is stored, in an order in which creation times never decrease. *)
Theorem presented_comments st vid :
  (length (filter (λ c, videoId c = vid) (comments st)) < 64)%nat →
  Forall (λ c, videoId c = vid ∧ c ∈ comments st) (commentsForVideo st vid)
  ∧ commentsForVideo st vid ≡ₚ filter (λ c, videoId c = vid) (comments st)
  ∧ StronglySorted createdAt_le (commentsForVideo st vid).
Proof.
  intros _. destruct (commentsForVideo_sorted st vid) as [Hp Hs].
  split; [|done]. apply Forall_forall. intros c Hc.
  rewrite Hp in Hc. by apply list_elem_of_filter in Hc.
Qed.

Lemma presented_comments_witness :
  Forall (λ c, videoId c = js "wowfinalfinal1" ∧ c ∈ comments same_instant_comments)
         (commentsForVideo same_instant_comments (js "wowfinalfinal1"))
  ∧ commentsForVideo same_instant_comments (js "wowfinalfinal1")
    ≡ₚ filter (λ c, videoId c = js "wowfinalfinal1") (comments same_instant_comments)
  ∧ StronglySorted createdAt_le
      (commentsForVideo same_instant_comments (js "wowfinalfinal1")).
Proof.
  apply (presented_comments same_instant_comments (js "wowfinalfinal1")).
  vm_compute. lia.
Defined.

(** X12. A comment accepted for a video makes the list presented for that
    video one longer and leaves the list presented for every other video
    as it was. *)
Theorem handleAddComment_presented clk vid txt st u :
  currentUser st = Some u →
  trim txt ≠ [] →
  length (commentsForVideo (handleAddComment clk vid txt st) vid)
  = S (length (commentsForVideo st vid))
  ∧ ∀ vid', vid' ≠ vid →
      commentsForVideo (handleAddComment clk vid txt st) vid'
      = commentsForVideo st vid'.
Proof.
  intros Hu Hne. rewrite (handleAddComment_appended _ _ _ _ _ Hu Hne). split.
  - destruct (commentsForVideo_sorted st vid) as [->%Permutation_length _].
    match goal with
    | |- length (commentsForVideo ?s _) = _ =>
        destruct (commentsForVideo_sorted s vid) as [->%Permutation_length _]
    end.
    simpl. rewrite filter_app, filter_cons_True by done.
    rewrite length_app. simpl. lia.
  - intros vid' Hvid. unfold commentsForVideo. simpl.
    rewrite filter_app, filter_cons_False by (simpl; congruence).
    by rewrite filter_nil, app_nil_r.
Qed.

Lemma handleAddComment_presented_witness :
  length (commentsForVideo
            (handleAddComment noon (js "wowfinalfinal1") (js " nice ") signed_in)
            (js "wowfinalfinal1"))
  = S (length (commentsForVideo signed_in (js "wowfinalfinal1")))
  ∧ ∀ vid', vid' ≠ js "wowfinalfinal1" →
      commentsForVideo
        (handleAddComment noon (js "wowfinalfinal1") (js " nice ") signed_in) vid'
      = commentsForVideo signed_in vid'.
Proof.
  apply (handleAddComment_presented noon (js "wowfinalfinal1") (js " nice ")
           signed_in alice).
  - reflexivity.
  - vm_compute. discriminate.
Defined.

(** X13. A comment accepted from a user raises that user's comment figure
    by one and no other user's. *)
Theorem handleAddComment_totalCommentsByUser clk vid txt st u name :
  currentUser st = Some u →
  trim txt ≠ [] →
  totalCommentsByUser (handleAddComment clk vid txt st) name
  = if decide (name = username u) then totalCommentsByUser st name + 1
    else totalCommentsByUser st name.
Proof.
  intros Hu Hne. rewrite (handleAddComment_appended _ _ _ _ _ Hu Hne).
  unfold totalCommentsByUser. simpl. rewrite filter_app, length_app.
  case_decide as Hn.
  - subst name. rewrite filter_cons_True by done. simpl. lia.
  - rewrite filter_cons_False by (simpl; congruence). simpl. lia.
Qed.

Lemma handleAddComment_totalCommentsByUser_witness :
  totalCommentsByUser
    (handleAddComment noon (js "wowfinalfinal1") (js " nice ") signed_in)
    (username alice)
  = if decide (username alice = username alice)
    then totalCommentsByUser signed_in (username alice) + 1
    else totalCommentsByUser signed_in (username alice).
Proof.
  apply (handleAddComment_totalCommentsByUser noon (js "wowfinalfinal1")
           (js " nice ") signed_in alice).
  - reflexivity.
  - vm_compute. discriminate.
Defined.

(** X14. The comment form of the card.  A text of white space only is
    kept in the input and nothing else happens.  Any other text empties the
    input: with a user signed in, one comment with the trimmed text is
    appended; with none, no comment is stored, the text is gone, and the
    authentication message is set. *)
Theorem VideoCard_handleSubmit_cases clk vid commentInput st :
  (trim commentInput = [] →
     VideoCard_handleSubmit clk vid commentInput st = (commentInput, st))
  ∧ (trim commentInput ≠ [] →
       fst (VideoCard_handleSubmit clk vid commentInput st) = []
       ∧ (∀ u, currentUser st = Some u →
            ∃ c, comments (snd (VideoCard_handleSubmit clk vid commentInput st))
                 = comments st ++ [c]
                 ∧ text c = trim commentInput ∧ author c = username u)
       ∧ (currentUser st = None →
            comments (snd (VideoCard_handleSubmit clk vid commentInput st))
            = comments st
            ∧ authError (snd (VideoCard_handleSubmit clk vid commentInput st))
              = Some (js "You need to be logged in to comment."))).
Proof.
  unfold VideoCard_handleSubmit. split.
  - by intros ->.
  - intros Hne. destruct (trim commentInput) as [|c t] eqn:Ht; [done|]. simpl.
    split; [done|]. split.
    + intros u Hu. rewrite (handleAddComment_appended _ _ _ _ u Hu) by by rewrite Ht.
      simpl. eexists. split; [done|]. by rewrite Ht.
    + intros Hu. unfold handleAddComment. by rewrite Hu.
Qed.

Lemma VideoCard_handleSubmit_cases_witness :
  VideoCard_handleSubmit noon (js "wowfinalfinal1") (js "  ") signed_in
  = (js "  ", signed_in)
  ∧ fst (VideoCard_handleSubmit noon (js "wowfinalfinal1") (js "nice") initial_state)
    = [].
Proof.
  split.
  - apply (proj1 (VideoCard_handleSubmit_cases noon (js "wowfinalfinal1") (js "  ")
                    signed_in)).
    reflexivity.
  - apply (proj2 (VideoCard_handleSubmit_cases noon (js "wowfinalfinal1") (js "nice")
                    initial_state)).
    vm_compute. discriminate.
Defined.

Lemma Number_toString_inj z1 z2 :
  Number_toString z1 = Number_toString z2 → z1 = z2.
Proof.
  assert (Hn : ∀ n1 n2, N_toString n1 = N_toString n2 → n1 = n2).
  { intros n1 n2 H.
    pose proof (JSON_facts.read_nat_toString n1 [] I) as H1.
    pose proof (JSON_facts.read_nat_toString n2 [] I) as H2.
    rewrite app_nil_r in H1, H2. rewrite H in H1. congruence. }
  assert (Hd : ∀ n t, N_toString n ≠ 45%N :: t).
  { intros n t H.
    destruct (JSON_facts.N_toString_head n) as (c & t' & Hc & _ & _ & _ & _ & Hm & _).
    congruence. }
  unfold Number_toString.
  destruct (z1 <? 0) eqn:E1, (z2 <? 0) eqn:E2; intros H.
  - injection H as H. apply Hn in H. apply Z.ltb_lt in E1, E2. lia.
  - symmetry in H. by apply Hd in H.
  - by apply Hd in H.
  - apply Hn in H. apply Z.ltb_ge in E1, E2. lia.
Qed.

(** X15. Two comments accepted for one video get the same id exactly when
    their submission times in milliseconds are the same. *)
Theorem comment_ids_by_time clk1 clk2 vid txt1 txt2 st u :
  currentUser st = Some u →
  trim txt1 ≠ [] →
  trim txt2 ≠ [] →
  comment_id <$> last (comments (handleAddComment clk1 vid txt1 st))
  = comment_id <$> last (comments (handleAddComment clk2 vid txt2 st))
  ↔ Date_now clk1 = Date_now clk2.
Proof.
  intros Hu H1 H2.
  rewrite (handleAddComment_appended _ _ _ _ _ Hu H1).
  rewrite (handleAddComment_appended _ _ _ _ _ Hu H2). simpl.
  rewrite !last_snoc. simpl. split.
  - intros [= H]. apply app_inv_head in H. injection H as H.
    by apply Number_toString_inj.
  - by intros ->.
Qed.

Lemma comment_ids_by_time_witness :
  comment_id <$> last (comments (handleAddComment noon (js "wowfinalfinal1")
                                   (js "first") signed_in))
  = comment_id <$> last (comments (handleAddComment noon (js "wowfinalfinal1")
                                     (js "second") signed_in))
  ↔ Date_now noon = Date_now noon.
Proof.
  apply (comment_ids_by_time noon noon (js "wowfinalfinal1") (js "first")
           (js "second") signed_in alice).
  - reflexivity.
  - vm_compute. discriminate.
  - vm_compute. discriminate.
Defined.

(** ** Navigation *)

(** X16. A wheel movement of less than 30 changes nothing.  A larger one
    lands on a tab that depends on its direction only, down on "your"
    and up on "trending", whatever the tab was; the index is never
    touched, and a second movement of the same kind changes nothing
    more. *)
Theorem handleWheel_lands deltaY st :
  activeTab (handleWheel deltaY st)
  = (if decide (Z.abs deltaY < 30) then activeTab st
     else if decide (0 < deltaY) then your else trending)
  ∧ currentIndex (handleWheel deltaY st) = currentIndex st
  ∧ handleWheel deltaY (handleWheel deltaY st) = handleWheel deltaY st.
Proof.
  destruct st as [tab i].
  assert (Hw : handleWheel deltaY (mkNav tab i)
               = mkNav (if decide (Z.abs deltaY < 30) then tab
                        else if decide (0 < deltaY) then your else trending) i).
  { unfold handleWheel, setActiveTab. simpl.
    destruct tab; repeat case_decide; try done; try lia;
      repeat match goal with H : ¬ (_ ∧ _) |- _ => apply not_and_l in H as [?|?] end;
      done || lia. }
  rewrite Hw. simpl. split; [done|]. split; [done|].
  rewrite <-Hw at 2. rewrite Hw. unfold handleWheel, setActiveTab. simpl.
  repeat case_decide; try done; try lia;
    repeat match goal with H : _ ∧ _ |- _ => destruct H end; try done; try lia.
Qed.

(** X17. No event handler changes the tab and the index together: a
    gesture either switches the tab or moves within it. *)
Theorem handle_tab_or_index videos ev st st' :
  handle videos ev st = Some st' →
  activeTab st' = activeTab st ∨ currentIndex st' = currentIndex st.
Proof.
  assert (Hc : ∀ d s s', cycleVideo videos d s = Some s' →
                         activeTab s' = activeTab s).
  { intros d s s'. unfold cycleVideo.
    destruct (cycleVideo_next _ _ _ _); simpl; [|done]. by intros [= <-]. }
  destruct ev; simpl.
  - intros [= <-]. by right.
  - intros [= <-]. right. apply handleWheel_index.
  - unfold handleTouchEnd. destruct touchStart as [[x0 y0]|]; [|intros [= <-]; by left].
    repeat case_decide; try (intros [= <-]; by right); try (intros [= <-]; by left);
      intros Hcyc; left; by eapply Hc.
  - unfold handleMediaClick. case_decide; intros Hcyc; left; by eapply Hc.
  - intros Hcyc; left; by eapply Hc.
  - intros Hcyc; left; by eapply Hc.
Qed.

Lemma handle_tab_or_index_witness :
  activeTab (mkNav your 1) = activeTab (mkNav trending 1)
  ∨ currentIndex (mkNav your 1) = currentIndex (mkNav trending 1).
Proof.
  apply (handle_tab_or_index ALL_VIDEOS (TouchEnd (Some (100, 300)) 110 100)
           (mkNav trending 1) (mkNav your 1)).
  reflexivity.
Defined.

Lemma nav_step_next videos tab i :
  0 ≤ i < filteredLength videos tab →
  nav_step videos CardNext (mkNav tab i)
  = Some (mkNav tab ((i + 1) mod filteredLength videos tab)).
Proof.
  intros Hi. unfold nav_step, handle, cycleVideo. simpl.
  rewrite cycleVideo_next_mod by lia. simpl.
  rewrite Z.max_r by lia. f_equal.
  apply indexEffect_in_range. simpl.
  apply Z.mod_pos_bound. lia.
Qed.

(** X18. From an index within a filtered list that is not empty, [n]
    "next" operations end at the index [n] places on, counted round the
    list; as many operations as the list is long come back to the start. *)
Theorem next_times_index videos tab i n :
  0 ≤ i < filteredLength videos tab →
  next_times videos n (mkNav tab i)
  = Some (mkNav tab ((i + Z.of_nat n) mod filteredLength videos tab))
  ∧ next_times videos (length (filteredList videos tab)) (mkNav tab i)
    = Some (mkNav tab i).
Proof.
  intros Hi.
  assert (Hn : ∀ n i, 0 ≤ i < filteredLength videos tab →
            next_times videos n (mkNav tab i)
            = Some (mkNav tab ((i + Z.of_nat n) mod filteredLength videos tab))).
  { clear. intros n. induction n as [|n IH]; intros i Hi.
    - simpl. by rewrite Z.add_0_r, Z.mod_small.
    - cbn [next_times]. rewrite nav_step_next by done. simpl.
      rewrite IH by (apply Z.mod_pos_bound; lia). do 2 f_equal.
      rewrite Zplus_mod_idemp_l. f_equal. lia. }
  split; [by apply Hn|].
  rewrite Hn by done. do 2 f_equal. fold (filteredLength videos tab).
  rewrite <-(Z.mul_1_l (filteredLength videos tab)) at 1.
  rewrite Z_mod_plus_full. by apply Z.mod_small.
Qed.

Lemma next_times_index_witness :
  next_times ALL_VIDEOS 5 (mkNav your 1)
  = Some (mkNav your ((1 + Z.of_nat 5) mod filteredLength ALL_VIDEOS your))
  ∧ next_times ALL_VIDEOS (length (filteredList ALL_VIDEOS your)) (mkNav your 1)
    = Some (mkNav your 1).
Proof.
  apply (next_times_index ALL_VIDEOS your 1 5). vm_compute. split; discriminate || done.
Defined.

(** X19. "Next" and "previous" undo each other on an index within a
    filtered list that is not empty. *)
Theorem cycleVideo_inverse videos tab i :
  0 ≤ i < filteredLength videos tab →
  cycleVideo_next videos tab forward i ≫= cycleVideo_next videos tab backward = Some i
  ∧ cycleVideo_next videos tab backward i ≫= cycleVideo_next videos tab forward = Some i.
Proof.
  intros Hi.
  assert (Hm : ∀ j, 0 ≤ j mod filteredLength videos tab)
    by (intros j; apply Z.mod_pos_bound; lia).
  split; rewrite cycleVideo_next_mod by lia; simpl;
    rewrite cycleVideo_next_mod by (rewrite Z.max_r by lia; apply Hm);
    rewrite Z.max_r by lia; f_equal; simpl;
    rewrite Zplus_mod_idemp_l;
    [replace (i + 1 + -1) with i by lia | replace (i + -1 + 1) with i by lia];
    by apply Z.mod_small.
Qed.

Lemma cycleVideo_inverse_witness :
  cycleVideo_next ALL_VIDEOS trending forward 1
    ≫= cycleVideo_next ALL_VIDEOS trending backward = Some 1
  ∧ cycleVideo_next ALL_VIDEOS trending backward 1
      ≫= cycleVideo_next ALL_VIDEOS trending forward = Some 1.
Proof. apply (cycleVideo_inverse ALL_VIDEOS trending 1). by vm_compute. Defined.

Lemma filteredList_elem videos tab v :
  v ∈ filteredList videos tab ↔ v ∈ videos ∧ in_tab tab v = true.
Proof. unfold filteredList. rewrite list_elem_of_filter. tauto. Qed.

(** X20. The video put on display is always one of the catalogue that
    belongs to the active tab, also when the index is out of range; with
    the index in range it is the video at that index; and nothing is
    displayed only when the tab has no videos. *)
Theorem currentVideo_in_tab videos st :
  (∀ v, currentVideo videos st = Some v →
        v ∈ videos ∧ in_tab (activeTab st) v = true)
  ∧ (0 ≤ currentIndex st < filteredLength videos (activeTab st) →
       currentVideo videos st
       = filteredList videos (activeTab st) !! Z.to_nat (currentIndex st))
  ∧ (currentVideo videos st = None ↔ filteredList videos (activeTab st) = []).
Proof.
  unfold currentVideo, array_get. split; [|split].
  - intros v. case_decide.
    + destruct (_ !! _) as [w|] eqn:Hw.
      * intros [= <-]. by eapply filteredList_elem, list_elem_of_lookup_2.
      * intros Hv. apply filteredList_elem.
        destruct (filteredList videos (activeTab st)); simplify_eq/=. left.
    + intros Hv. apply filteredList_elem.
      destruct (filteredList videos (activeTab st)); simplify_eq/=. left.
  - intros Hi. rewrite decide_True by lia.
    destruct (lookup_lt_is_Some_2 (filteredList videos (activeTab st))
                (Z.to_nat (currentIndex st))) as [v ->]; [|done].
    unfold filteredLength in Hi. lia.
  - split.
    + case_decide; [destruct (_ !! _); [done|]|];
        by destruct (filteredList videos (activeTab st)).
    + intros ->. by case_decide.
Qed.

Lemma currentVideo_in_tab_witness :
  currentVideo ALL_VIDEOS (mkNav your 1)
  = filteredList ALL_VIDEOS (activeTab (mkNav your 1))
      !! Z.to_nat (currentIndex (mkNav your 1)).
Proof.
  apply (proj1 (proj2 (currentVideo_in_tab ALL_VIDEOS (mkNav your 1)))).
  by vm_compute.
Defined.

(** X21. The index effect settles in one run: run on its own result it
    changes nothing, so the effect cannot keep the component
    re-rendering; and it never changes the tab. *)
Theorem indexEffect_settles videos st :
  indexEffect videos (indexEffect videos st) = indexEffect videos st
  ∧ activeTab (indexEffect videos st) = activeTab st.
Proof.
  split.
  - destruct (decide (filteredLength videos (activeTab st) ≤ currentIndex st))
      as [H1|H1].
    + unfold indexEffect at 2 3. rewrite decide_True by done.
      unfold indexEffect. simpl. by case_decide.
    + unfold indexEffect at 2 3. rewrite decide_False by done.
      unfold indexEffect. by rewrite decide_False.
  - unfold indexEffect. by case_decide.
Qed.

(** X22. A touch is read as one gesture.  Without a recorded start, or
    when it moved 40 or less both ways, nothing happens.  A mostly vertical
    movement of more than 40 keeps the index and lands on "trending" when
    it went down and on "your" when it went up; any other movement of more
    than 40 across keeps the tab and steps to the next video when it went
    left and to the previous one when it went right. *)
Theorem handleTouchEnd_gesture videos x0 y0 x1 y1 st :
  handleTouchEnd videos None x1 y1 st = Some st
  ∧ (Z.abs (x1 - x0) ≤ 40 → Z.abs (y1 - y0) ≤ 40 →
       handleTouchEnd videos (Some (x0, y0)) x1 y1 st = Some st)
  ∧ (Z.abs (x1 - x0) < Z.abs (y1 - y0) → 40 < Z.abs (y1 - y0) →
       handleTouchEnd videos (Some (x0, y0)) x1 y1 st
       = Some (mkNav (if decide (0 < y1 - y0) then trending else your)
                     (currentIndex st)))
  ∧ (Z.abs (y1 - y0) ≤ Z.abs (x1 - x0) → 40 < Z.abs (x1 - x0) →
       handleTouchEnd videos (Some (x0, y0)) x1 y1 st
       = cycleVideo videos (if decide (x1 - x0 < 0) then forward else backward) st).
Proof.
  destruct st as [tab i]. unfold handleTouchEnd, setActiveTab. simpl.
  split; [done|]. split; [|split].
  - intros Hx Hy. rewrite decide_False by lia. by rewrite decide_False by lia.
  - intros Hxy Hy. rewrite decide_True by done.
    destruct tab; repeat case_decide; try done; try lia;
      repeat match goal with H : ¬ (_ ∧ _) |- _ => apply not_and_l in H as [?|?] end;
      repeat match goal with H : _ ∧ _ |- _ => destruct H end;
      done || lia.
  - intros Hyx Hx. rewrite decide_False by lia. rewrite decide_True by done.
    by case_decide.
Qed.

Lemma handleTouchEnd_gesture_witness :
  handleTouchEnd ALL_VIDEOS (Some (100, 300)) 110 100 (mkNav trending 1)
  = Some (mkNav (if decide (0 < 100 - 300) then trending else your)
                (currentIndex (mkNav trending 1))).
Proof.
  apply (proj1 (proj2 (proj2 (handleTouchEnd_gesture ALL_VIDEOS 100 300 110 100
                                (mkNav trending 1))))); lia.
Defined.

(** ** Persistence *)

Lemma storage_used_insert_fresh m k v :
  m !! k = None →
  storage_used (<[k := v]> m) = (length k + length v + storage_used m)%nat.
Proof.
  intros Hk. unfold storage_used.
  rewrite map_fold_insert_L; [done| |done]. intros. lia.
Qed.

Lemma storage_used_insert_le m k v :
  (storage_used (<[k := v]> m) ≤ storage_used m + length k + length v)%nat.
Proof.
  destruct (m !! k) as [x|] eqn:Hk.
  - rewrite <-(insert_delete_eq m), storage_used_insert_fresh
      by apply lookup_delete_eq.
    rewrite <-(insert_delete_id m k x) at 2 by done.
    rewrite storage_used_insert_fresh by apply lookup_delete_eq. lia.
  - rewrite storage_used_insert_fresh by done. lia.
Qed.

Section persistence_more.
Variable stringify : jsvalue → jsstring.
Variable parse : jsstring → option jsvalue.

Lemma saveToStorage_items h key v :
  ∃ ls', localStorage (saveToStorage stringify h key v) = ls'
         ∧ has_window (saveToStorage stringify h key v) = has_window h
         ∧ ∀ key', key' ≠ key →
             (ls' ≫= Storage_getItem key') = (localStorage h ≫= Storage_getItem key').
Proof.
  eexists. split; [done|]. unfold saveToStorage.
  destruct (has_window h) eqn:Hw; simpl; [|by rewrite Hw].
  destruct (localStorage h) as [ls|] eqn:Hls; simpl; [|by rewrite Hw, Hls].
  unfold Storage_setItem. case_decide; simpl; [|by rewrite Hw, Hls].
  split; [done|]. intros key' Hne. unfold Storage_getItem. simpl.
  by rewrite lookup_insert_ne.
Qed.

Lemma loadFromStorage_getItem h key fallback :
  loadFromStorage parse h key fallback
  = if has_window h then
      match localStorage h ≫= Storage_getItem key with
      | Some raw => if truthy raw then default fallback (parse raw) else fallback
      | None => fallback
      end
    else fallback.
Proof.
  unfold loadFromStorage. destruct (has_window h); simpl; [|done].
  destruct (localStorage h) as [ls|]; simpl; [|done].
  destruct (Storage_getItem key ls) as [[|c raw]|]; simpl; try done.
Qed.

Lemma saveToStorage_room h ls key v :
  has_window h = true →
  localStorage h = Some ls →
  (N.of_nat (storage_used (items ls) + length key + length (stringify v))
   ≤ quota ls)%N →
  saveToStorage stringify h key v
  = mkHost true (Some (mkStorage (<[key := stringify v]> (items ls)) (quota ls))).
Proof.
  intros Hw Hls Hroom. unfold saveToStorage. rewrite Hw, Hls. simpl.
  unfold Storage_setItem. rewrite decide_True; [done|].
  pose proof (storage_used_insert_le (items ls) key (stringify v)). lia.
Qed.
End persistence_more.

(** X23. Saving under one key never changes what is loaded under another
    key, whether or not the store takes the write. *)
Theorem saveToStorage_other_key stringify parse h key key' v fallback :
  key' ≠ key →
  loadFromStorage parse (saveToStorage stringify h key v) key' fallback
  = loadFromStorage parse h key' fallback.
Proof.
  intros Hne. rewrite !loadFromStorage_getItem.
  destruct (saveToStorage_items stringify h key v) as (ls' & <- & -> & Hget).
  by rewrite Hget.
Qed.

Lemma saveToStorage_other_key_witness :
  loadFromStorage JSON.parse
    (saveToStorage JSON.stringify roomy_host LIKES_KEY (likes_value one_like))
    COMMENTS_KEY (JArr [])
  = loadFromStorage JSON.parse roomy_host COMMENTS_KEY (JArr []).
Proof.
  apply (saveToStorage_other_key JSON.stringify JSON.parse roomy_host LIKES_KEY
           COMMENTS_KEY).
  discriminate.
Defined.

(** X24. The last write the store took is what is loaded.  When two
    values are saved under one key and the store takes both, loading gives
    the second; when it takes the first and refuses the second, the host is
    left as it was and loading still gives the first. *)
Theorem saveToStorage_last_accepted stringify parse h ls ls1 key v1 v2 fallback :
  parse (stringify v1) = Some v1 →
  parse (stringify v2) = Some v2 →
  truthy (stringify v1) = true →
  truthy (stringify v2) = true →
  has_window h = true →
  localStorage h = Some ls →
  Storage_setItem key (stringify v1) ls = Some ls1 →
  (∀ ls2, Storage_setItem key (stringify v2) ls1 = Some ls2 →
     loadFromStorage parse
       (saveToStorage stringify (saveToStorage stringify h key v1) key v2)
       key fallback = v2)
  ∧ (Storage_setItem key (stringify v2) ls1 = None →
       saveToStorage stringify (saveToStorage stringify h key v1) key v2
       = saveToStorage stringify h key v1
       ∧ loadFromStorage parse
           (saveToStorage stringify (saveToStorage stringify h key v1) key v2)
           key fallback = v1).
Proof.
  intros Hp1 Hp2 Ht1 Ht2 Hw Hls Hset1.
  assert (Hh1 : saveToStorage stringify h key v1 = mkHost true (Some ls1)).
  { unfold saveToStorage. by rewrite Hw, Hls; simpl; rewrite Hset1. }
  split.
  - intros ls2 Hset2. rewrite Hh1.
    by apply (loadFromStorage_saved stringify parse _ key v2 fallback ls1 ls2).
  - intros Hset2.
    assert (saveToStorage stringify (saveToStorage stringify h key v1) key v2
            = saveToStorage stringify h key v1) as ->.
    { rewrite Hh1. unfold saveToStorage. simpl. by rewrite Hset2. }
    split; [done|].
    by apply (loadFromStorage_saved stringify parse _ key v1 fallback ls ls1).
Qed.

Lemma saveToStorage_last_accepted_witness :
  saveToStorage JSON.stringify
    (saveToStorage JSON.stringify tight_host LIKES_KEY (likes_value one_like))
    LIKES_KEY (likes_value two_likes)
  = saveToStorage JSON.stringify tight_host LIKES_KEY (likes_value one_like)
  ∧ loadFromStorage JSON.parse
      (saveToStorage JSON.stringify
         (saveToStorage JSON.stringify tight_host LIKES_KEY (likes_value one_like))
         LIKES_KEY (likes_value two_likes))
      LIKES_KEY (JObj [])
    = likes_value one_like.
Proof.
  pose proof (saveToStorage_last_accepted JSON.stringify JSON.parse tight_host
                (mkStorage ∅ 40)
                (mkStorage (<[LIKES_KEY := JSON.stringify (likes_value one_like)]> ∅) 40)
                LIKES_KEY (likes_value one_like) (likes_value two_likes) (JObj []))
    as H.
  destruct H as [_ H].
  - apply JSON_facts.parse_stringify, wf_likes_value.
  - apply JSON_facts.parse_stringify, wf_likes_value.
  - apply JSON_facts.stringify_truthy.
  - apply JSON_facts.stringify_truthy.
  - reflexivity.
  - reflexivity.
  - vm_compute. reflexivity.
  - apply H. vm_compute. reflexivity.
Defined.

(** X25. What the save effects write, the hydration effect reads.  For a
    [JSON] that reads back what it writes, in a browser whose store has
    room for the four entries, the save effects of a state followed by the
    hydration of a fresh mount give back the four cells of that state. *)
Theorem saveEffects_hydrationEffect stringify parse st h ls :
  (∀ v, wf_value v → parse (stringify v) = Some v) →
  (∀ v, truthy (stringify v) = true) →
  has_window h = true →
  localStorage h = Some ls →
  (N.of_nat (storage_used (items ls) + entries_size stringify st) ≤ quota ls)%N →
  hydrationEffect parse (saveEffects stringify st h)
  = mkHydrated (likes_value (likes st)) (userLikes_value (userLikes st))
               (comments_value (comments st)) (avatars_value (avatars st)).
Proof.
  intros Hlaw Htruthy Hw Hls. unfold entries_size. intros Hroom.
  pose proof (storage_used_insert_le) as Hle.
  unfold saveEffects.
  rewrite (saveToStorage_room stringify h ls) by (done || lia).
  pose proof (Hle (items ls) LIKES_KEY (stringify (likes_value (likes st)))) as H1.
  remember (<[LIKES_KEY := stringify (likes_value (likes st))]> (items ls))
    as i1 eqn:Hi1.
  rewrite (saveToStorage_room stringify (mkHost true (Some (mkStorage i1 (quota ls))))
             (mkStorage i1 (quota ls)) USER_LIKES_KEY)
    by (done || (cbn [items quota]; lia)).
  cbn [items quota].
  pose proof (Hle i1 USER_LIKES_KEY (stringify (userLikes_value (userLikes st)))) as H2.
  remember (<[USER_LIKES_KEY := stringify (userLikes_value (userLikes st))]> i1)
    as i2 eqn:Hi2.
  rewrite (saveToStorage_room stringify (mkHost true (Some (mkStorage i2 (quota ls))))
             (mkStorage i2 (quota ls)) COMMENTS_KEY)
    by (done || (cbn [items quota]; lia)).
  cbn [items quota].
  pose proof (Hle i2 COMMENTS_KEY (stringify (comments_value (comments st)))) as H3.
  remember (<[COMMENTS_KEY := stringify (comments_value (comments st))]> i2)
    as i3 eqn:Hi3.
  rewrite (saveToStorage_room stringify (mkHost true (Some (mkStorage i3 (quota ls))))
             (mkStorage i3 (quota ls)) USER_AVATARS_KEY)
    by (done || (cbn [items quota]; lia)).
  cbn [items quota].
  unfold hydrationEffect. rewrite !loadFromStorage_getItem.
  cbn [has_window localStorage mbind option_bind]. unfold Storage_getItem.
  cbn [items]. subst i3 i2 i1.
  rewrite (lookup_insert_ne _ USER_AVATARS_KEY LIKES_KEY) by done.
  rewrite (lookup_insert_ne _ COMMENTS_KEY LIKES_KEY) by done.
  rewrite (lookup_insert_ne _ USER_LIKES_KEY LIKES_KEY) by done.
  rewrite (lookup_insert_ne _ USER_AVATARS_KEY USER_LIKES_KEY) by done.
  rewrite (lookup_insert_ne _ COMMENTS_KEY USER_LIKES_KEY) by done.
  rewrite (lookup_insert_ne _ USER_AVATARS_KEY COMMENTS_KEY) by done.
  rewrite !lookup_insert_eq, !Htruthy.
  rewrite !Hlaw by (apply wf_likes_value || apply wf_userLikes_value
                    || apply wf_comments_value || apply wf_avatars_value).
  done.
Qed.

Lemma saveEffects_hydrationEffect_witness :
  hydrationEffect JSON.parse (saveEffects JSON.stringify liked_once roomy_host)
  = mkHydrated (likes_value (likes liked_once))
               (userLikes_value (userLikes liked_once))
               (comments_value (comments liked_once))
               (avatars_value (avatars liked_once)).
Proof.
  apply (saveEffects_hydrationEffect JSON.stringify JSON.parse liked_once roomy_host
           (mkStorage ∅ 5000000)
           JSON_facts.parse_stringify JSON_facts.stringify_truthy eq_refl eq_refl).
  vm_compute. discriminate.
Defined.

(** ** Signing in *)

(** X26. The sign-in form.  It never leaves an error and a success
    message together.  With a blank email or password, or a refusal from
    the identity service, the user stays as it was and an error is shown;
    with both fields filled and a user in the answer, that user is signed
    in under the derived username and no error is shown.  In no case are
    likes, comments or avatars touched. *)
Theorem handleAuthSubmit_outcomes mode emailInput passwordInput resp st :
  ¬ (is_Some (authError (handleAuthSubmit mode emailInput passwordInput resp st))
     ∧ is_Some (authSuccess (handleAuthSubmit mode emailInput passwordInput resp st)))
  ∧ ((trim emailInput = [] ∨ trim passwordInput = [] ∨ ∃ m, resp = AuthFailed m) →
       currentUser (handleAuthSubmit mode emailInput passwordInput resp st)
       = currentUser st
       ∧ is_Some (authError (handleAuthSubmit mode emailInput passwordInput resp st)))
  ∧ (∀ u, trim emailInput ≠ [] → trim passwordInput ≠ [] → resp = AuthOk (Some u) →
       currentUser (handleAuthSubmit mode emailInput passwordInput resp st)
       = Some (mkCurrentUser (su_id u) (default [] (su_email u)) (sessionUsername u))
       ∧ authError (handleAuthSubmit mode emailInput passwordInput resp st) = None)
  ∧ (likes (handleAuthSubmit mode emailInput passwordInput resp st) = likes st
     ∧ userLikes (handleAuthSubmit mode emailInput passwordInput resp st) = userLikes st
     ∧ comments (handleAuthSubmit mode emailInput passwordInput resp st) = comments st
     ∧ avatars (handleAuthSubmit mode emailInput passwordInput resp st) = avatars st).
Proof.
  destruct (handleAuthSubmit_cells mode emailInput passwordInput resp st)
    as (Hl & Hul & Ha & Hc).
  split; [|split; [|split]]; [| | |done].
  - unfold handleAuthSubmit.
    destruct (_ || _); [|destruct resp as [m|[u|]], mode];
      intros [[x Hx] [y Hy]]; simplify_eq/=.
  - unfold handleAuthSubmit.
    destruct (trim emailInput) as [|c1 t1], (trim passwordInput) as [|c2 t2];
      simpl; try (intros _; split; eauto; done).
    intros [[=]|[[=]|[m ->]]]. simpl. eauto.
  - intros u He Hp ->. unfold handleAuthSubmit.
    destruct (trim emailInput), (trim passwordInput); try done. simpl.
    by destruct mode.
Qed.

Lemma handleAuthSubmit_outcomes_witness :
  currentUser (handleAuthSubmit login (js "alice@example.com") (js "   ")
                 (AuthOk (Some alice_session)) initial_state)
  = currentUser initial_state
  ∧ is_Some (authError (handleAuthSubmit login (js "alice@example.com") (js "   ")
                          (AuthOk (Some alice_session)) initial_state)).
Proof.
  apply (proj1 (proj2 (handleAuthSubmit_outcomes login (js "alice@example.com")
                         (js "   ") (AuthOk (Some alice_session)) initial_state))).
  right. left. reflexivity.
Defined.

(** ** Avatars *)

(** X27. A picture loaded for a user is shown for that user, replaces the
    one before, and leaves the pictures of other user ids alone.  It is
    kept through a logout, during which no picture is shown, and shown
    again when a session with the same user id starts. *)
Theorem avatar_kept st cu dataUrl u :
  dataUrl ≠ [] →
  su_id u = user_id cu →
  (currentUser st = Some cu →
     currentAvatar (handleAvatarLoaded cu dataUrl st) = Some dataUrl)
  ∧ (∀ id, id ≠ user_id cu →
       avatars (handleAvatarLoaded cu dataUrl st) !! id = avatars st !! id)
  ∧ (∀ old, handleAvatarLoaded cu dataUrl (handleAvatarLoaded cu old st)
            = handleAvatarLoaded cu dataUrl st)
  ∧ currentAvatar (handleLogout (handleAvatarLoaded cu dataUrl st)) = None
  ∧ currentAvatar (onAuthStateChange (Some u)
                     (handleLogout (handleAvatarLoaded cu dataUrl st)))
    = Some dataUrl.
Proof.
  intros Hurl Hid. destruct dataUrl as [|c d]; [done|].
  unfold currentAvatar, handleAvatarLoaded. simpl.
  split; [|split; [|split; [|split]]].
  - intros ->. by rewrite lookup_insert_eq.
  - intros id Hne. by rewrite lookup_insert_ne.
  - intros old. unfold setAvatars. simpl. by rewrite insert_insert_eq.
  - done.
  - by rewrite Hid, lookup_insert_eq.
Qed.

Lemma avatar_kept_witness :
  currentAvatar (onAuthStateChange (Some alice_session)
                   (handleLogout (handleAvatarLoaded alice (js "data:image/png;base64,AAAA")
                                    signed_in)))
  = Some (js "data:image/png;base64,AAAA").
Proof.
  apply (avatar_kept signed_in alice (js "data:image/png;base64,AAAA") alice_session).
  - discriminate.
  - reflexivity.
Defined.

(** ** Comments in the order they were made *)

Lemma extendRun_ascending {A} (comparefn : A → A → Z) prev rest :
  Sorted (λ a b, (comparefn b a <? 0) = false) (prev :: rest) →
  extendRun comparefn false prev rest = (rest, []).
Proof.
  revert prev. induction rest as [|cur rest IH]; intros prev Hs; simpl; [done|].
  apply Sorted_inv in Hs as [Hs Hhd]. apply HdRel_inv in Hhd.
  rewrite Hhd. by rewrite (IH cur Hs).
Qed.

Lemma Array_sort_ascending {A} (comparefn : A → A → Z) l :
  Sorted (λ a b, (comparefn b a <? 0) = false) l →
  Array_sort comparefn l = l.
Proof.
  intros Hs. unfold Array_sort, countAndMakeRun.
  destruct l as [|a0 [|a1 rest]]; [done..|].
  pose proof Hs as Hs'. apply Sorted_inv in Hs' as [Hs' Hhd].
  apply HdRel_inv in Hhd. rewrite Hhd.
  by rewrite (extendRun_ascending comparefn a1 rest Hs').
Qed.

(** X28. When the stored comments of a video have strictly increasing
    creation times, as they have when each was made at a later instant
    than the one before, they are presented in the order in which they
    were stored. *)
Theorem presented_in_stored_order st vid :
  Sorted (λ a b, str_lt (createdAt a) (createdAt b) = true)
         (filter (λ c, videoId c = vid) (comments st)) →
  commentsForVideo st vid = filter (λ c, videoId c = vid) (comments st).
Proof.
  intros Hs. unfold commentsForVideo. apply Array_sort_ascending.
  induction Hs as [|a l Hl IH Hhd]; constructor; [done|].
  destruct Hhd as [|b l' Hab]; constructor.
  unfold str_gt. by rewrite Hab.
Qed.

Lemma presented_in_stored_order_witness :
  commentsForVideo two_comments (js "wowfinalfinal1")
  = filter (λ c, videoId c = js "wowfinalfinal1") (comments two_comments).
Proof.
  apply (presented_in_stored_order two_comments (js "wowfinalfinal1")).
  vm_compute. repeat constructor.
Defined.

(** ** What a reload keeps *)

Lemma counts_nonneg_step ev st :
  cells_hold counts_nonneg st → cells_hold counts_nonneg (app_step ev st).
Proof.
  intros (Hinv & _). split; [|done]. simpl in *.
  destruct ev; simpl; try exact Hinv.
  - by destruct session.
  - unfold handleAuthSubmit. destruct (_ || _); [exact Hinv|].
    destruct resp as [|[u|]], mode; exact Hinv.
  - destruct (currentUser st) as [cu|] eqn:Hcu.
    + destruct (get_or (userLikes st) (username cu) []) as [l|p] eqn:Hl.
      2:{ by rewrite (toggleLike_throws _ _ _ _ Hcu Hl). }
      rewrite (toggleLike_logged_in _ _ _ _ Hcu Hl). simpl. intros vid' n.
      destruct (decide (vid' = vid)) as [->|Hne].
      * rewrite lookup_insert_eq. intros [= <-].
        assert (0 ≤ likesForVideo st vid).
        { unfold likesForVideo.
          destruct (likes st !! vid) eqn:Hold; simpl; [by eapply Hinv | done]. }
        destruct (includes vid _); lia.
      * rewrite lookup_insert_ne by done. apply Hinv.
    + rewrite toggleLike_logged_out by done. exact Hinv.
  - unfold handleAddComment. destruct (currentUser st); [|exact Hinv].
    destruct (negb _); exact Hinv.
Qed.

(** X29. In every state of a run, reloads included, no like count is
    negative, whatever writes the store refused on the way. *)
Theorem likes_never_negative st vid :
  reachable st → 0 ≤ likesForVideo st vid.
Proof.
  intros (w & Hw & <-).
  destruct (run_invariant (λ _, True) counts_nonneg) with (w := w)
    as (_ & (Hn & _) & _); [done|done| |done|].
  { intros ev st _ Hc. split; [done|]. by apply counts_nonneg_step. }
  simpl in Hn. unfold likesForVideo.
  destruct (likes (app w) !! vid) eqn:Hl; simpl; [by eapply Hn | done].
Qed.

Lemma likes_never_negative_witness :
  0 ≤ likesForVideo (app reloaded) (js "wowfinalfinal2").
Proof.
  apply (likes_never_negative (app reloaded) (js "wowfinalfinal2")).
  exists reloaded. split; [|done].
  apply run_event, run_reload, run_event, run_event, run_event, run_open.
  by intros ls [= <-].
Defined.
